(** * DemARK notebooks: a shallow embedding of the notebook code

    The repository is a set of Jupyter notebooks that drive the HARK
    consumption-saving library.  This development embeds the code the
    notebooks themselves contain and proves what the specification says
    of it:

    - [MPC]: the conversion of quarterly to annual marginal propensities
      to consume;
    - [TBS]: [makeTBSplot], the plotting routine behind the widgets of the
      tractable buffer stock demo, with its [try]/[except] around
      [solve()];
    - [Impatient]: the experiment with very impatient households, on a
      heap of objects with [deepcopy];
    - [LorenzCell]: the cell that plots Lorenz curves, and the data file
      its import opens;
    - [Plotting]: what [makeTBSplot] writes, when it returns and what it
      draws;
    - [SolveRaises]: [makeTBSplot] when [solve()] raises;
    - [AgentTypes]: the loop that builds the agent types and the loop
      that solves and simulates them;
    - [Credit]: the consumer with more credit;
    - [Setup]: the cell that chooses between inline figures and not;
    - [Copies]: what the copied types of the experiment with very
      impatient households hold.

    The library itself is not part of the repository.  Where a property
    is about what the library computes, the computation is taken from
    the specification's wording and says so:

    - [Aggregator]: Lorenz shares;
    - [Solver]: the convergence loop of the stationary problem.

    Numbers.  The notebooks compute in binary64 floating point.  The
    embedding idealises them as exact rationals [Q]; equality of numbers
    is [Qeq] (written [==]).  What is stated of the notebooks' own code
    is meant to hold of the rounded arithmetic as well: identities that
    hold only without rounding are not among the theorems. *)

From Stdlib Require Import QArith Qminmax Qabs Qround Lqa ZArith Lia List.
From stdpp Require Import gmap strings list pretty.

Local Open Scope Q_scope.

(** ** Annualising marginal propensities to consume *)

Module MPC.

(** A one-dimensional numpy array of floats. *)
Abbreviation ndarray := (list Q).

(** [s - arr]: numpy broadcasts the scalar over the array. *)
Definition scalar_sub (s : Q) (arr : ndarray) : ndarray :=
  (fun x => s - x) <$> arr.

(** [arr ** n] for an integer exponent. *)
Definition array_pow (arr : ndarray) (n : Z) : ndarray :=
  (fun x => x ^ n) <$> arr.

(** [MPCpercentiles_annual = 1.0 - (1.0 - MPCpercentiles_quarterly)**4] *)
Definition MPCpercentiles_annual (MPCpercentiles_quarterly : ndarray) : ndarray :=
  scalar_sub 1 (array_pow (scalar_sub 1 MPCpercentiles_quarterly) 4).

(** The conversion as the specification words it:
    [1 - (1 - mpc_period)^periods_per_year]. *)
Definition annualize (mpc_period : Q) (periods_per_year : Z) : Q :=
  1 - (1 - mpc_period) ^ periods_per_year.

Lemma MPCpercentiles_annual_length q :
  length (MPCpercentiles_annual q) = length q.
Proof.
  unfold MPCpercentiles_annual, scalar_sub, array_pow.
  now rewrite !length_fmap.
Qed.

Lemma MPCpercentiles_annual_lookup (q : ndarray) (i : nat) :
  MPCpercentiles_annual q !! i = (fun x => annualize x 4) <$> (q !! i).
Proof.
  unfold MPCpercentiles_annual, scalar_sub, array_pow.
  rewrite !list_lookup_fmap.
  destruct (q !! i); reflexivity.
Qed.

Lemma pow4_unit_interval (x : Q) : 0 <= x <= 1 -> 0 <= x ^ 4 <= 1.
Proof.
  intros [H0 H1].
  assert (E : x ^ 4 == (x * x) * (x * x)) by (simpl; ring).
  assert (0 <= x * x) by nra.
  assert (x * x <= 1) by nra.
  rewrite E. split; nra.
Qed.

Lemma annualize_unit_interval (mpc : Q) :
  0 <= mpc <= 1 -> 0 <= annualize mpc 4 <= 1.
Proof.
  intros [H0 H1]. unfold annualize.
  destruct (pow4_unit_interval (1 - mpc)) as [A B]; [split; lra |].
  split; lra.
Qed.

(** C1.  Every entry [mpc_period] in [[0,1]] of the quarterly array is sent
    by the notebook's conversion to [1 - (1 - mpc_period)^4], which again
    lies in [[0,1]]; and [annualize 0 4 = 0], [annualize 1 4 = 1],
    [annualize 0.5 4 = 0.9375]. *)
Theorem annualize_quarterly (q : ndarray) (i : nat) (mpc_period : Q) :
  q !! i = Some mpc_period ->
  0 <= mpc_period <= 1 ->
  MPCpercentiles_annual q !! i = Some (1 - (1 - mpc_period) ^ 4)
  /\ MPCpercentiles_annual q !! i = Some (annualize mpc_period 4)
  /\ 0 <= annualize mpc_period 4 <= 1
  /\ annualize 0 4 == 0
  /\ annualize 1 4 == 1
  /\ annualize (1 # 2) 4 == 9375 # 10000.
Proof.
  intros Hi Hr.
  rewrite MPCpercentiles_annual_lookup, Hi. cbn [fmap option_fmap option_map].
  repeat split; try reflexivity.
  - apply annualize_unit_interval, Hr.
  - apply annualize_unit_interval, Hr.
Qed.

Lemma annualize_quarterly_witness :
  MPCpercentiles_annual [0; 1 # 2; 1] !! 1%nat = Some (1 - (1 - (1 # 2)) ^ 4)
  /\ MPCpercentiles_annual [0; 1 # 2; 1] !! 1%nat = Some (annualize (1 # 2) 4)
  /\ 0 <= annualize (1 # 2) 4 <= 1
  /\ annualize 0 4 == 0
  /\ annualize 1 4 == 1
  /\ annualize (1 # 2) 4 == 9375 # 10000.
Proof.
  apply (annualize_quarterly [0; 1 # 2; 1] 1 (1 # 2)).
  - reflexivity.
  - split; [discriminate | discriminate].
Defined.

End MPC.

(** ** numpy *)

Module Np.

(** [numpy.linspace(start, stop, num, endpoint=True)]: [num] evenly spaced
    samples, the last one set to [stop] itself. *)
Definition linspace (start stop : Q) (num : nat) : list Q :=
  let div := Z.of_nat (num - 1) in
  let step := (stop - start) / inject_Z div in
  let y := (fun i : nat => inject_Z (Z.of_nat i) * step + start) <$> seq 0 num in
  match num with
  | O | S O => y
  | _ => <[(num - 1)%nat := stop]> y
  end.

End Np.

(** ** The interactive plot of the tractable buffer stock demo *)

Module TBS.

Import Np.

(** [c[m == 0.] = 0.]: assignment through a boolean mask. *)
Fixpoint mask_zero (m c : list Q) : list Q :=
  match m, c with
  | mi :: m', ci :: c' => (if Qeq_bool mi 0 then 0 else ci) :: mask_zero m' c'
  | _, _ => c
  end.

(** Rounding to the nearest integer, ties to even, as string formatting
    of a number does. *)
Definition round_half_even (x : Q) : Z :=
  let n := Qnum x in
  let d := Z.pos (Qden x) in
  let fl := (n / d)%Z in
  let r := (n mod d)%Z in
  match (2 * r ?= d)%Z with
  | Lt => fl
  | Gt => (fl + 1)%Z
  | Eq => if Z.even fl then fl else (fl + 1)%Z
  end.

Fixpoint zeros (n : nat) : string :=
  match n with
  | O => ""
  | S n' => "0" +:+ zeros n'
  end.

(** Left-pad a digit string with zeros to [width] characters. *)
Definition zero_pad (width : nat) (s : string) : string :=
  zeros (width - String.length s) +:+ s.

(** ["{:.Nf}".format(number)] *)
Definition format_fixed (digits : nat) (number : Q) : string :=
  let scale := (10 ^ Z.of_nat digits)%Z in
  let n := round_half_even (Qabs number * inject_Z scale) in
  let sign := if Qlt_le_dec number 0 then "-" else "" in
  match digits with
  | O => sign +:+ pretty n
  | _ => sign +:+ pretty (n / scale)%Z +:+ "." +:+ zero_pad digits (pretty (n mod scale)%Z)
  end.

(** [mystr = lambda number : "{:.3f}".format(number)] *)
Definition mystr (number : Q) : string := format_fixed 3 number.

(** One period's solution as the notebook reads it: the consumption
    function of the employed and of the unemployed consumer. *)
Record ConsumerSolution := {
  cFunc : Q -> Q;
  cFunc_U : Q -> Q
}.

(** The attributes of [MyTBStype] that [makeTBSplot] writes or reads.
    The first five are set by the constructor; the others exist only
    once [solve()] has stored them, so they are optional. *)
Record TractableConsumerType := {
  DiscFac : Q;
  CRRA : Q;
  Rfree : Q;
  PermGroFac : Q;
  UnempPrb : Q;
  solution : option (list ConsumerSolution);
  PermGroFacCmp : option Q;
  mTarg : option Q;
  cTarg : option Q
}.

Inductive exn :=
| AttributeError (attr : string)
| IndexError
| ZeroDivisionError
| SolverError (msg : string).

(** What a call of the library's [solve()] on the object leaves behind:
    it returns, or it raises; either way the object is in the state the
    call left it in. *)
Inductive outcome :=
| Returned (self : TractableConsumerType)
| Raised (e : exn) (self : TractableConsumerType).

(** What the cell sends to standard output and to matplotlib. *)
Inductive event :=
| Print (s : string)
| Xlabel (s : string)
| Ylabel (s : string)
| Ylim (lo hi : Q)
| Xlim (lo hi : Q)
| Plot (xs ys : list Q) (style : string)
| Annotate (label : string) (xy xytext : Q * Q) (textcoords : string)
| Show.

(** The notebook's global state: the object [MyTBStype] and the output
    produced so far. *)
Record world := {
  MyTBStype : TractableConsumerType;
  output : list event
}.

(** Computations that read and write the global state and may raise. *)
Definition M (A : Type) : Type := world -> (exn + A) * world.

Definition ret {A} (a : A) : M A := fun w => (inr a, w).

Definition raise {A} (e : exn) : M A := fun w => (inl e, w).

Definition bind {A B} (c : M A) (k : A -> M B) : M B :=
  fun w =>
    match c w with
    | (inl e, w') => (inl e, w')
    | (inr a, w') => k a w'
    end.

Notation "x <~ c ;; k" := (bind c (fun x => k))
  (at level 100, c at next level, right associativity).
Notation "c ;; k" := (bind c (fun _ => k))
  (at level 100, right associativity).

(** [try: c except: h] with a bare [except], which catches everything. *)
Definition try_except {A} (c : M A) (h : M A) : M A :=
  fun w =>
    match c w with
    | (inl _, w') => h w'
    | (inr a, w') => (inr a, w')
    end.

Definition emit (e : event) : M unit :=
  fun w => (inr tt, {| MyTBStype := MyTBStype w; output := output w ++ [e] |}).

Definition update (f : TractableConsumerType -> TractableConsumerType) : M unit :=
  fun w => (inr tt, {| MyTBStype := f (MyTBStype w); output := output w |}).

Definition read {A} (f : TractableConsumerType -> A) : M A :=
  fun w => (inr (f (MyTBStype w)), w).

(** Reading an attribute that may not exist yet. *)
Definition getattr {A} (name : string) (f : TractableConsumerType -> option A) : M A :=
  fun w =>
    match f (MyTBStype w) with
    | Some a => (inr a, w)
    | None => (inl (AttributeError name), w)
    end.

(** [xs[0]] *)
Definition first {A} (xs : list A) : M A :=
  match xs with
  | x :: _ => ret x
  | [] => raise IndexError
  end.

(** Python's float division. *)
Definition divide (a b : Q) : M Q :=
  if Qeq_bool b 0 then raise ZeroDivisionError else ret (a / b).

Definition when (b : bool) (c : M unit) : M unit :=
  if b then c else ret tt.

Definition set_DiscFac (v : Q) (a : TractableConsumerType) : TractableConsumerType :=
  {| DiscFac := v; CRRA := CRRA a; Rfree := Rfree a; PermGroFac := PermGroFac a;
     UnempPrb := UnempPrb a; solution := solution a;
     PermGroFacCmp := PermGroFacCmp a; mTarg := mTarg a; cTarg := cTarg a |}.

Definition set_CRRA (v : Q) (a : TractableConsumerType) : TractableConsumerType :=
  {| DiscFac := DiscFac a; CRRA := v; Rfree := Rfree a; PermGroFac := PermGroFac a;
     UnempPrb := UnempPrb a; solution := solution a;
     PermGroFacCmp := PermGroFacCmp a; mTarg := mTarg a; cTarg := cTarg a |}.

Definition set_PermGroFac (v : Q) (a : TractableConsumerType) : TractableConsumerType :=
  {| DiscFac := DiscFac a; CRRA := CRRA a; Rfree := Rfree a; PermGroFac := v;
     UnempPrb := UnempPrb a; solution := solution a;
     PermGroFacCmp := PermGroFacCmp a; mTarg := mTarg a; cTarg := cTarg a |}.

Definition set_UnempPrb (v : Q) (a : TractableConsumerType) : TractableConsumerType :=
  {| DiscFac := DiscFac a; CRRA := CRRA a; Rfree := Rfree a; PermGroFac := PermGroFac a;
     UnempPrb := v; solution := solution a;
     PermGroFacCmp := PermGroFacCmp a; mTarg := mTarg a; cTarg := cTarg a |}.

(** The arguments the widgets pass to [makeTBSplot]. *)
Record plot_args := {
  arg_DiscFac : Q;
  arg_CRRA : Q;
  arg_Rfree : Q;
  arg_PermGroFac : Q;
  arg_UnempPrb : Q;
  mMax : Q;
  mMin : Q;
  cMin : Q;
  cMax : Q;
  plot_emp : bool;
  plot_ret : bool;
  plot_mSS : bool;
  show_targ : bool
}.

Section MakeTBSplot.

(** [TractableConsumerType.solve] belongs to the library. *)
Variable solve : TractableConsumerType -> outcome.

(** [MyTBStype.solve()] *)
Definition call_solve : M unit :=
  fun w =>
    match solve (MyTBStype w) with
    | Returned a => (inr tt, {| MyTBStype := a; output := output w |})
    | Raised e a => (inl e, {| MyTBStype := a; output := output w |})
    end.

(** The sustainable consumption level at market resources [m]:
    [PermGroFacCmp/Rfree + m*(1.0 - PermGroFacCmp/Rfree)]. *)
Definition sustainable (m : Q) : M Q :=
  g1 <~ getattr "PermGroFacCmp" PermGroFacCmp ;;
  R1 <~ read Rfree ;;
  q1 <~ divide g1 R1 ;;
  g2 <~ getattr "PermGroFacCmp" PermGroFacCmp ;;
  R2 <~ read Rfree ;;
  q2 <~ divide g2 R2 ;;
  ret (q1 + m * (1 - q2)).

Definition makeTBSplot (args : plot_args) : M unit :=
  update (set_DiscFac (arg_DiscFac args)) ;;
  update (set_CRRA (arg_CRRA args)) ;;
  update (set_PermGroFac (arg_PermGroFac args)) ;;
  update (set_UnempPrb (arg_UnempPrb args)) ;;
  try_except call_solve
    (emit (Print "Those parameter values violate a condition required for solution!")) ;;
  emit (Xlabel "Market resources $M_t$") ;;
  emit (Ylabel "Consumption $C_t$") ;;
  emit (Ylim (cMin args) (cMax args)) ;;
  emit (Xlim (mMin args) (mMax args)) ;;
  let m := linspace (mMin args) (mMax args) 100 in
  when (plot_emp args)
    (sol <~ getattr "solution" solution ;;
     s0 <~ first sol ;;
     let c := cFunc s0 <$> m in
     let c := mask_zero m c in
     emit (Plot m c "-b")) ;;
  when (plot_mSS args)
    (lo <~ sustainable (mMin args) ;;
     hi <~ sustainable (mMax args) ;;
     emit (Plot [mMin args; mMax args] [lo; hi] "--k")) ;;
  when (plot_ret args)
    (sol <~ getattr "solution" solution ;;
     s0 <~ first sol ;;
     let c := cFunc_U s0 <$> m in
     emit (Plot m c "-g")) ;;
  when (show_targ args)
    (mT <~ getattr "mTarg" mTarg ;;
     cT <~ getattr "cTarg" cTarg ;;
     let targ_label := "$m^* =$" +:+ mystr mT +:+ "
$c^* =$" +:+ mystr cT in
     emit (Annotate targ_label (0, 0) (8 # 10, 5 # 100) "axes fraction")) ;;
  emit Show ;;
  ret tt.

End MakeTBSplot.

(** The four assignments at the head of [makeTBSplot], taken together.
    [Rfree] is not among them: the function never stores its [Rfree]
    argument. *)
Definition assign (args : plot_args) (a : TractableConsumerType) : TractableConsumerType :=
  set_UnempPrb (arg_UnempPrb args)
    (set_PermGroFac (arg_PermGroFac args)
       (set_CRRA (arg_CRRA args)
          (set_DiscFac (arg_DiscFac args) a))).

(** What is drawn after the [try] block, from the consumption functions
    [s0], the compensated growth factor [g], the interest factor [R] and
    the targets [mT], [cT]. *)
Definition drawing (args : plot_args) (s0 : ConsumerSolution) (g R mT cT : Q) : list event :=
  let m := linspace (mMin args) (mMax args) 100 in
  [Xlabel "Market resources $M_t$";
   Ylabel "Consumption $C_t$";
   Ylim (cMin args) (cMax args);
   Xlim (mMin args) (mMax args)]
  ++ (if plot_emp args then [Plot m (mask_zero m (cFunc s0 <$> m)) "-b"] else [])
  ++ (if plot_mSS args
      then [Plot [mMin args; mMax args]
                 [g / R + mMin args * (1 - g / R); g / R + mMax args * (1 - g / R)] "--k"]
      else [])
  ++ (if plot_ret args then [Plot m (cFunc_U s0 <$> m) "-g"] else [])
  ++ (if show_targ args
      then [Annotate ("$m^* =$" +:+ mystr mT +:+ "
$c^* =$" +:+ mystr cT) (0, 0) (8 # 10, 5 # 100) "axes fraction"]
      else [])
  ++ [Show].

(** *** A concrete run *)

(** [MyTBStype] as constructed from [TBS_dictionary]: not solved yet. *)
Definition TBS_object : TractableConsumerType :=
  {| DiscFac := 975 # 1000; CRRA := 25 # 10; Rfree := 101 # 100;
     PermGroFac := 10025 # 10000; UnempPrb := 625 # 100000;
     solution := None; PermGroFacCmp := None; mTarg := None; cTarg := None |}.

(** The values the widgets start from. *)
Definition widget_defaults : plot_args :=
  {| arg_DiscFac := 95 # 100; arg_CRRA := 25 # 10; arg_Rfree := 101 # 100;
     arg_PermGroFac := 10025 # 10000; arg_UnempPrb := 625 # 100000;
     mMax := 50; mMin := 0; cMin := 0; cMax := 15 # 10;
     plot_emp := true; plot_ret := true; plot_mSS := true; show_targ := true |}.

(** The object after the first call, as the stand-in solver below leaves it. *)
Definition solved_example : TractableConsumerType :=
  {| DiscFac := 95 # 100; CRRA := 25 # 10; Rfree := 101 # 100;
     PermGroFac := 10025 # 10000; UnempPrb := 625 # 100000;
     solution := Some [ {| cFunc := fun m => m * (1 - (95 # 100));
                           cFunc_U := fun m => m * (1 - (95 # 100)) / 2 |} ];
     PermGroFacCmp := Some ((10025 # 10000) / (1 - (625 # 100000)));
     mTarg := Some (9 # 1);
     cTarg := Some (1 # 1) |}.

(** A stand-in for the library's solver in the concrete run.  As the
    library's [solve()] does, it stores the compensated growth factor
    [PermGroFacCmp = PermGroFac / (1 - UnempPrb)] before it checks the
    parameter values, so a call that raises has already written it.
    It refuses parameter values with
    [Rfree * DiscFac * (1 - UnempPrb) >= PermGroFac]; otherwise it
    stores a solution and the targets. *)
Definition example_solve (a : TractableConsumerType) : outcome :=
  let PermGroFacCmp_new := PermGroFac a / (1 - UnempPrb a) in
  if Qle_bool (PermGroFac a) (Rfree a * DiscFac a * (1 - UnempPrb a))
  then Raised (SolverError "growth impatience condition")
         {| DiscFac := DiscFac a; CRRA := CRRA a; Rfree := Rfree a;
            PermGroFac := PermGroFac a; UnempPrb := UnempPrb a;
            solution := solution a;
            PermGroFacCmp := Some PermGroFacCmp_new;
            mTarg := mTarg a;
            cTarg := cTarg a |}
  else Returned
         {| DiscFac := DiscFac a; CRRA := CRRA a; Rfree := Rfree a;
            PermGroFac := PermGroFac a; UnempPrb := UnempPrb a;
            solution := Some [ {| cFunc := fun m => m * (1 - DiscFac a);
                                  cFunc_U := fun m => m * (1 - DiscFac a) / 2 |} ];
            PermGroFacCmp := Some PermGroFacCmp_new;
            mTarg := Some (9 # 1);
            cTarg := Some (1 # 1) |}.

(** Sliders moved to [DiscFac = 0.99], [PermGroFac = 0.9], every box ticked. *)
Definition impatient_args : plot_args :=
  {| arg_DiscFac := 99 # 100; arg_CRRA := 25 # 10; arg_Rfree := 101 # 100;
     arg_PermGroFac := 9 # 10; arg_UnempPrb := 625 # 100000;
     mMax := 50; mMin := 0; cMin := 0; cMax := 15 # 10;
     plot_emp := true; plot_ret := true; plot_mSS := true; show_targ := true |}.

(** *** Lemmas *)

Section MakeTBSplotFacts.

Variable solve : TractableConsumerType -> outcome.

Lemma assign_params args a :
  DiscFac (assign args a) = arg_DiscFac args
  /\ CRRA (assign args a) = arg_CRRA args
  /\ PermGroFac (assign args a) = arg_PermGroFac args
  /\ UnempPrb (assign args a) = arg_UnempPrb args.
Proof. repeat split. Qed.

Lemma assign_frame args a :
  Rfree (assign args a) = Rfree a
  /\ solution (assign args a) = solution a
  /\ PermGroFacCmp (assign args a) = PermGroFacCmp a
  /\ mTarg (assign args a) = mTarg a
  /\ cTarg (assign args a) = cTarg a.
Proof. repeat split. Qed.

(** After [c[m == 0.] = 0.] the array holds 0 wherever [m] is 0, and what
    the consumption function returned everywhere else. *)
Lemma mask_zero_lookup (m c : list Q) (i : nat) (mi ci : Q) :
  m !! i = Some mi -> c !! i = Some ci ->
  mask_zero m c !! i = Some (if Qeq_bool mi 0 then 0 else ci).
Proof.
  revert c i. induction m as [| m0 m IH]; intros [| c0 c] [| i] Hm Hc;
    try discriminate; cbn in *.
  - now inversion Hm; inversion Hc; subst.
  - now apply IH.
Qed.

Lemma bind_update {B} f (k : unit -> M B) (w : world) :
  bind (update f) k w
  = k tt {| MyTBStype := f (MyTBStype w); output := output w |}.
Proof. reflexivity. Qed.

Lemma bind_emit {B} e (k : unit -> M B) (w : world) :
  bind (emit e) k w
  = k tt {| MyTBStype := MyTBStype w; output := output w ++ [e] |}.
Proof. reflexivity. Qed.

Lemma bind_try_solve_returned {B} (h : M unit) (k : unit -> M B) (w : world) a' :
  solve (MyTBStype w) = Returned a' ->
  bind (try_except (call_solve solve) h) k w
  = k tt {| MyTBStype := a'; output := output w |}.
Proof. intros H. unfold bind, try_except, call_solve. now rewrite H. Qed.

Lemma bind_try_solve_raised {B} (h : M unit) (k : unit -> M B) (w : world) e a' :
  solve (MyTBStype w) = Raised e a' ->
  bind (try_except (call_solve solve) h) k w
  = bind h k {| MyTBStype := a'; output := output w |}.
Proof. intros H. unfold bind, try_except, call_solve. now rewrite H. Qed.

Lemma divide_nonzero (x y : Q) (w : world) :
  ~ y == 0 -> divide x y w = (inr (x / y), w).
Proof.
  intros Hy. unfold divide.
  destruct (Qeq_bool y 0) eqn:E; [| reflexivity].
  apply Qeq_bool_eq in E. contradiction.
Qed.

Lemma sustainable_value (m g : Q) (w : world) :
  PermGroFacCmp (MyTBStype w) = Some g ->
  ~ Rfree (MyTBStype w) == 0 ->
  sustainable m w =
    (inr (g / Rfree (MyTBStype w) + m * (1 - g / Rfree (MyTBStype w))), w).
Proof.
  intros Hg HR. unfold sustainable, bind, getattr, read.
  rewrite Hg. rewrite (divide_nonzero _ _ _ HR).
  rewrite Hg. rewrite (divide_nonzero _ _ _ HR).
  reflexivity.
Qed.

(** Everything after the [try] block, run on an object that holds a
    solution: it raises nothing and appends [drawing]. *)
Lemma after_try_draws (args : plot_args) (w : world) s0 rest g mT cT :
  solution (MyTBStype w) = Some (s0 :: rest) ->
  PermGroFacCmp (MyTBStype w) = Some g ->
  mTarg (MyTBStype w) = Some mT ->
  cTarg (MyTBStype w) = Some cT ->
  ~ Rfree (MyTBStype w) == 0 ->
  (emit (Xlabel "Market resources $M_t$") ;;
   emit (Ylabel "Consumption $C_t$") ;;
   emit (Ylim (cMin args) (cMax args)) ;;
   emit (Xlim (mMin args) (mMax args)) ;;
   let m := linspace (mMin args) (mMax args) 100 in
   when (plot_emp args)
     (sol <~ getattr "solution" solution ;;
      s0 <~ first sol ;;
      let c := cFunc s0 <$> m in
      let c := mask_zero m c in
      emit (Plot m c "-b")) ;;
   when (plot_mSS args)
     (lo <~ sustainable (mMin args) ;;
      hi <~ sustainable (mMax args) ;;
      emit (Plot [mMin args; mMax args] [lo; hi] "--k")) ;;
   when (plot_ret args)
     (sol <~ getattr "solution" solution ;;
      s0 <~ first sol ;;
      let c := cFunc_U s0 <$> m in
      emit (Plot m c "-g")) ;;
   when (show_targ args)
     (mT <~ getattr "mTarg" mTarg ;;
      cT <~ getattr "cTarg" cTarg ;;
      let targ_label := "$m^* =$" +:+ mystr mT +:+ "
$c^* =$" +:+ mystr cT in
      emit (Annotate targ_label (0, 0) (8 # 10, 5 # 100) "axes fraction")) ;;
   emit Show ;;
   ret tt) w
  = (inr tt,
     {| MyTBStype := MyTBStype w;
        output := output w ++ drawing args s0 g (Rfree (MyTBStype w)) mT cT |}).
Proof.
  intros Hsol Hg HmT HcT HR.
  destruct w as [a out]. cbn [MyTBStype output] in *.
  unfold drawing.
  destruct (plot_emp args), (plot_mSS args), (plot_ret args), (show_targ args);
    unfold bind, when, emit, getattr, first, ret;
    repeat (progress (cbn [MyTBStype output];
                      rewrite ?Hsol, ?HmT, ?HcT;
                      rewrite ?(sustainable_value _ g) by assumption));
    rewrite <- ?app_assoc; reflexivity.
Qed.

(** When [solve()] returns, the plot is drawn from the object it left. *)
Lemma makeTBSplot_solve_returns (a a' : TractableConsumerType) (args : plot_args)
    (out : list event) s0 rest g mT cT :
  solve (assign args a) = Returned a' ->
  solution a' = Some (s0 :: rest) ->
  PermGroFacCmp a' = Some g ->
  mTarg a' = Some mT ->
  cTarg a' = Some cT ->
  ~ Rfree a' == 0 ->
  makeTBSplot solve args {| MyTBStype := a; output := out |}
  = (inr tt,
     {| MyTBStype := a';
        output := out ++ drawing args s0 g (Rfree a') mT cT |}).
Proof.
  intros Hs Hsol Hg HmT HcT HR.
  unfold makeTBSplot.
  repeat (rewrite bind_update; cbv beta).
  rewrite (bind_try_solve_returned _ _ _ a') by exact Hs.
  now rewrite (after_try_draws args _ s0 rest g mT cT).
Qed.

(** When [solve()] raises and the object it leaves has no [solution]
    attribute (there was no successful [solve()] before), the function
    itself fails. *)
Lemma makeTBSplot_no_solution (a a' : TractableConsumerType) (args : plot_args)
    (out : list event) (e : exn) :
  solve (assign args a) = Raised e a' ->
  solution a' = None ->
  plot_emp args = true ->
  fst (makeTBSplot solve args {| MyTBStype := a; output := out |})
  = inl (AttributeError "solution").
Proof.
  intros Hs Hsol Hemp.
  unfold makeTBSplot.
  repeat (rewrite bind_update; cbv beta).
  rewrite (bind_try_solve_raised _ _ _ e a') by exact Hs.
  rewrite Hemp.
  unfold bind, emit, when, getattr. cbn [MyTBStype output].
  now rewrite Hsol.
Qed.

(** When [solve()] raises, the message is printed and the plot is drawn
    from the object as [solve()] left it. *)
Lemma makeTBSplot_after_failed_solve (a a' : TractableConsumerType) (args : plot_args)
    (e : exn) (out : list event) s0 rest g mT cT :
  solve (assign args a) = Raised e a' ->
  solution a' = Some (s0 :: rest) ->
  PermGroFacCmp a' = Some g ->
  mTarg a' = Some mT ->
  cTarg a' = Some cT ->
  ~ Rfree a' == 0 ->
  makeTBSplot solve args {| MyTBStype := a; output := out |}
  = (inr tt,
     {| MyTBStype := a';
        output :=
          out
          ++ [Print "Those parameter values violate a condition required for solution!"]
          ++ drawing args s0 g (Rfree a') mT cT |}).
Proof.
  intros Hs Hsol Hg HmT HcT HR.
  unfold makeTBSplot.
  repeat (rewrite bind_update; cbv beta).
  rewrite (bind_try_solve_raised _ _ _ e a') by exact Hs.
  rewrite bind_emit. cbv beta.
  rewrite (after_try_draws args _ s0 rest g mT cT) by assumption.
  cbn [MyTBStype output]. now rewrite <- app_assoc.
Qed.

End MakeTBSplotFacts.

End TBS.

(** ** The experiment with very impatient households: objects, references
    and [deepcopy]

    The heap holds the data of the agent types: instances with their
    attributes, and lists or arrays.  Functions, classes and modules,
    which [deepcopy] hands back uncopied, are immutable here and are not
    represented. *)

Module Impatient.

Local Close Scope Q_scope.

(** Object identities ([id(x)]). *)
Abbreviation loc := positive.

(** What a variable, an attribute or a list slot holds. *)
Inductive value :=
| VNone
| VNum (x : Q)
| VRef (l : loc).

(** Heap objects: an instance with its attribute dictionary (in insertion
    order), or a list / array with its items. *)
Inductive object :=
| OInstance (attrs : list (string * value))
| OList (items : list value).

Abbreviation heap := (gmap loc object).

Definition ref_of (v : value) : option loc :=
  match v with
  | VRef l => Some l
  | _ => None
  end.

(** The values an object holds, in order. *)
Definition children (o : object) : list value :=
  match o with
  | OInstance attrs => attrs.*2
  | OList items => items
  end.

(** An object of the same class with nothing in it yet. *)
Definition empty_like (o : object) : object :=
  match o with
  | OInstance _ => OInstance []
  | OList _ => OList []
  end.

(** The object rebuilt around new values for its slots. *)
Definition with_children (o : object) (vs : list value) : object :=
  match o with
  | OInstance attrs => OInstance (zip (attrs.*1) vs)
  | OList _ => OList vs
  end.

(** [l'] is referenced by a slot of [o]. *)
Definition points_to (o : object) (l' : loc) : Prop := VRef l' ∈ children o.

(** Reachability through references. *)
Inductive reach (h : heap) : loc -> loc -> Prop :=
| reach_refl l : reach h l l
| reach_step l o l' l'' :
    h !! l = Some o -> points_to o l' -> reach h l' l'' -> reach h l l''.

(** No dangling references. *)
Definition closed (h : heap) : Prop :=
  forall l o l', h !! l = Some o -> points_to o l' -> l' ∈ dom h.

(** *** [copy.deepcopy] *)

(** The copier's state: the [memo] dictionary (original identity to copy)
    and the heap. *)
Record copier := {
  memo : gmap loc loc;
  store : gmap loc object
}.

(** Copy the values of a sequence from left to right, threading the state. *)
Fixpoint copy_all (f : value -> copier -> option (value * copier))
    (vs : list value) (st : copier) : option (list value * copier) :=
  match vs with
  | [] => Some ([], st)
  | v :: vs' =>
      match f v st with
      | None => None
      | Some (v', st1) =>
          match copy_all f vs' st1 with
          | None => None
          | Some (vs'', st2) => Some (v' :: vs'', st2)
          end
      end
  end.

(** [deepcopy(x, memo)].  Numbers and [None] are returned as they are.  An
    object already in [memo] yields its copy.  Otherwise a new empty
    object of the same class is allocated and entered into [memo] before
    the slots are copied into it, so shared and cyclic structure is
    copied once.  [fuel] bounds the depth of the recursion. *)
Fixpoint deepcopy (fuel : nat) (v : value) (st : copier) : option (value * copier) :=
  match fuel with
  | O => None
  | S fuel' =>
      match v with
      | VRef l =>
          match memo st !! l with
          | Some l' => Some (VRef l', st)
          | None =>
              match store st !! l with
              | None => None
              | Some o =>
                  let l' := fresh (dom (store st)) in
                  let st1 := {| memo := <[l := l']> (memo st);
                                store := <[l' := empty_like o]> (store st) |} in
                  match copy_all (deepcopy fuel') (children o) st1 with
                  | None => None
                  | Some (vs, st2) =>
                      Some (VRef l',
                            {| memo := memo st2;
                               store := <[l' := with_children o vs]> (store st2) |})
                  end
              end
          end
      | _ => Some (v, st)
      end
  end.

(** *** Attribute assignment, indexing, method calls *)

Fixpoint assoc_set (name : string) (v : value) (attrs : list (string * value))
    : list (string * value) :=
  match attrs with
  | [] => [(name, v)]
  | (k, w) :: rest =>
      if String.eqb k name then (k, v) :: rest else (k, w) :: assoc_set name v rest
  end.

Fixpoint assoc_get (name : string) (attrs : list (string * value)) : option value :=
  match attrs with
  | [] => None
  | (k, w) :: rest => if String.eqb k name then Some w else assoc_get name rest
  end.

(** [obj.name = v] *)
Definition setattr (l : loc) (name : string) (v : value) (h : heap) : option heap :=
  match h !! l with
  | Some (OInstance attrs) => Some (<[l := OInstance (assoc_set name v attrs)]> h)
  | _ => None
  end.

(** [obj.name] *)
Definition getattr (l : loc) (name : string) (h : heap) : option value :=
  match h !! l with
  | Some (OInstance attrs) => assoc_get name attrs
  | _ => None
  end.

(** [xs[i]] *)
Definition getitem (l : loc) (i : nat) (h : heap) : option value :=
  match h !! l with
  | Some (OList items) => items !! i
  | _ => None
  end.

(** A method of the library called on [self]: it may write to the objects
    reachable from [self] and allocate new ones, and stores no reference
    to any other existing object. *)
Definition method_footprint (m : loc -> heap -> heap) : Prop :=
  forall (self : loc) (h : heap),
    (forall l, l ∈ dom h -> ~ reach h self l -> m self h !! l = h !! l)
    /\ (forall l, reach (m self h) self l -> reach h self l \/ l ∉ dom h).

Section Experiment.

(** [solve], [initializeSim] and [simulate] belong to the library. *)
Variables solve initializeSim simulate : loc -> heap -> heap.

(** [[
NewTypes = deepcopy(MyTypes)
NewTypes[0].DiscFac = 0.8
NewTypes[0].solve()
NewTypes[0].initializeSim()
NewTypes[0].simulate()
]]
    The result is the identity of [NewTypes] and the heap afterwards. *)
Definition very_impatient (fuel : nat) (MyTypes : loc) (h : heap) : option (loc * heap) :=
  match deepcopy fuel (VRef MyTypes) {| memo := ∅; store := h |} with
  | None => None
  | Some (v, st) =>
      match ref_of v with
      | None => None
      | Some NewTypes =>
          match getitem NewTypes 0 (store st) with
          | Some (VRef t0) =>
              match setattr t0 "DiscFac" (VNum (8 # 10)) (store st) with
              | None => None
              | Some h1 =>
                  let h2 := solve t0 h1 in
                  let h3 := initializeSim t0 h2 in
                  let h4 := simulate t0 h3 in
                  Some (NewTypes, h4)
              end
          | _ => None
          end
      end
  end.

End Experiment.

(** *** What [deepcopy] preserves *)

(** A value of the original heap [h0]. *)
Definition old_value (h0 : heap) (v : value) : Prop :=
  forall l, v = VRef l -> l ∈ dom h0.

(** A value that refers, if at all, to an object allocated by the copier. *)
Definition new_value (h0 : heap) (st : copier) (v : value) : Prop :=
  forall l, v = VRef l -> (l ∉ dom h0) /\ (l ∈ dom (store st)).

(** The copier's invariant, relative to the heap [h0] it started from. *)
Record copying (h0 : heap) (st : copier) : Prop := {
  old_kept : forall l, l ∈ dom h0 -> store st !! l = h0 !! l;
  memo_keys : forall l l', memo st !! l = Some l' -> l ∈ dom h0;
  memo_fresh : forall l l', memo st !! l = Some l' -> (l' ∉ dom h0) /\ (l' ∈ dom (store st));
  memo_kind : forall l l' o, memo st !! l = Some l' -> h0 !! l = Some o ->
      exists o', store st !! l' = Some o' /\ empty_like o' = empty_like o;
  new_closed : forall l o l', store st !! l = Some o -> l ∉ dom h0 -> points_to o l' ->
      (l' ∉ dom h0) /\ (l' ∈ dom (store st))
}.

(** What one call is required to establish. *)
Definition copies_well (h0 : heap) (f : value -> copier -> option (value * copier)) : Prop :=
  forall v st v' st',
    copying h0 st -> old_value h0 v -> f v st = Some (v', st') ->
    copying h0 st'
    /\ memo st ⊆ memo st'
    /\ dom (store st) ⊆ dom (store st')
    /\ new_value h0 st' v'
    /\ (forall l, v = VRef l -> exists l', v' = VRef l' /\ memo st' !! l = Some l').

(** *** [deepcopy] returns *)

(** The originals not yet entered into [memo]. *)
Definition pending (h0 : heap) (st : copier) : nat :=
  size (dom h0 ∖ dom (memo st)).

(** *** The copy shares nothing with the original *)

(** Objects allocated since [h0] refer to such objects only. *)
Definition new_part_closed (h0 h : heap) : Prop :=
  forall l o l', h !! l = Some o -> l ∉ dom h0 -> points_to o l' -> l' ∉ dom h0.

(** [h] still holds every object of [h0] as it was, and nothing reachable
    from [t] is an object of [h0]. *)
Definition apart (h0 h : heap) (t : loc) : Prop :=
  (forall l, l ∈ dom h0 -> h !! l = h0 !! l)
  /\ (forall l, reach h t l -> l ∉ dom h0).

(** A check of [closed] that can be evaluated. *)
Definition value_in (h : heap) (v : value) : Prop :=
  match v with
  | VRef l => is_Some (h !! l)
  | _ => True
  end.

#[local] Instance value_in_dec h v : Decision (value_in h v).
Proof. destruct v; cbn; apply _. Defined.

Definition closed_check (h : heap) : Prop :=
  map_Forall (fun _ o => Forall (value_in h) (children o)) h.

#[local] Instance closed_check_dec h : Decision (closed_check h).
Proof. unfold closed_check. apply _. Defined.

(** A method that overwrites the array stored under attribute [name] of
    [self] with the numbers [xs]. *)
Definition store_numbers (name : string) (xs : loc -> heap -> list Q)
    (self : loc) (h : heap) : heap :=
  match getattr self name h with
  | Some (VRef p) => <[p := OList (VNum <$> xs self h)]> h
  | _ => h
  end.

(** *** A concrete run *)

(** Two solved and simulated agent types in the list [MyTypes] (object 1). *)
Definition two_types : heap :=
  list_to_map
    [ (1%positive, OList [VRef 2; VRef 3]);
      (2%positive, OInstance [("DiscFac", VNum (9771 # 10000)); ("seed", VNum 0);
                              ("solution", VRef 4); ("aLvlNow", VRef 5)]);
      (3%positive, OInstance [("DiscFac", VNum (9940 # 10000)); ("seed", VNum 1);
                              ("solution", VRef 6); ("aLvlNow", VRef 7)]);
      (4%positive, OList [VNum (1 # 2); VNum (3 # 4)]);
      (5%positive, OList [VNum 2; VNum 3; VNum 5]);
      (6%positive, OList [VNum (1 # 4); VNum (1 # 2)]);
      (7%positive, OList [VNum 20; VNum 30; VNum 50]) ].

(** Stand-ins for the library's methods in the concrete run. *)
Definition example_solve : loc -> heap -> heap :=
  store_numbers "solution" (fun _ _ => [1; 1]%Q).

Definition example_initializeSim : loc -> heap -> heap :=
  store_numbers "aLvlNow" (fun _ _ => [0; 0; 0]%Q).

Definition example_simulate : loc -> heap -> heap :=
  store_numbers "aLvlNow" (fun _ _ => [1 # 10; 2 # 10; 3 # 10]%Q).

(** [copy.copy] of a list: a new list object holding the same items. *)
Definition shallow_copy (l : loc) (h : heap) : option (loc * heap) :=
  match h !! l with
  | Some o => let l' := fresh (dom h) in Some (l', <[l' := o]> h)
  | None => None
  end.

(** *** Lemmas *)

Lemma copying_start (h0 : heap) : copying h0 {| memo := ∅; store := h0 |}.
Proof.
  split; cbn.
  - reflexivity.
  - intros l l' H. now rewrite lookup_empty in H.
  - intros l l' H. now rewrite lookup_empty in H.
  - intros l l' o H. now rewrite lookup_empty in H.
  - intros l o l' H Hn. exfalso. apply Hn. apply elem_of_dom. eauto.
Qed.

Lemma copying_dom h0 st : copying h0 st -> dom h0 ⊆ dom (store st).
Proof.
  intros I l Hl. apply elem_of_dom. rewrite (old_kept _ _ I l Hl).
  now apply elem_of_dom.
Qed.

Lemma children_empty_like o : children (empty_like o) = [].
Proof. now destruct o. Qed.

Lemma empty_like_idem o : empty_like (empty_like o) = empty_like o.
Proof. now destruct o. Qed.

Lemma empty_like_with_children o vs : empty_like (with_children o vs) = empty_like o.
Proof. now destruct o. Qed.

Lemma children_with_children o vs :
  length vs = length (children o) -> children (with_children o vs) = vs.
Proof.
  destruct o as [attrs | items]; cbn; [| reflexivity].
  intros H. rewrite length_fmap in H.
  apply snd_zip. rewrite length_fmap. lia.
Qed.

Lemma children_with_children_sub o vs v :
  v ∈ children (with_children o vs) -> v ∈ vs.
Proof.
  destruct o as [attrs | items]; cbn; [| auto].
  intros H. apply list_elem_of_fmap in H as [[k w] [-> H]].
  cbn. eapply elem_of_zip_r, H.
Qed.

Lemma closed_children_old h0 l o :
  closed h0 -> h0 !! l = Some o -> Forall (old_value h0) (children o).
Proof.
  intros Hc Hl. apply Forall_forall. intros v Hv l' ->.
  exact (Hc l o l' Hl Hv).
Qed.

(** Allocating the empty copy of an original object and entering it
    into [memo] keeps the invariant. *)
Lemma copying_alloc h0 st l o :
  copying h0 st -> h0 !! l = Some o ->
  copying h0 {| memo := <[l := fresh (dom (store st))]> (memo st);
                store := <[fresh (dom (store st)) := empty_like o]> (store st) |}.
Proof.
  intros I Eo.
  set (l' := fresh (dom (store st))).
  assert (Hfresh : l' ∉ dom (store st)) by apply is_fresh.
  assert (Hnew : l' ∉ dom h0).
  { intros Hin. apply Hfresh. now apply (copying_dom _ _ I). }
  assert (Hl : l ∈ dom h0) by (apply elem_of_dom; eauto).
  split; cbn.
  - intros l0 Hl0. rewrite lookup_insert_ne; [apply (old_kept _ _ I), Hl0 |].
    intros ->. contradiction.
  - intros l0 l0' Hm. destruct (decide (l = l0)) as [<- | Hne].
    + assumption.
    + rewrite lookup_insert_ne in Hm by assumption. exact (memo_keys _ _ I _ _ Hm).
  - intros l0 l0' Hm. rewrite dom_insert. destruct (decide (l = l0)) as [<- | Hne].
    + rewrite lookup_insert_eq in Hm. inversion Hm; subst. split; [assumption | set_solver].
    + rewrite lookup_insert_ne in Hm by assumption.
      destruct (memo_fresh _ _ I _ _ Hm). split; [assumption | set_solver].
  - intros l0 l0' o0 Hm Ho0. destruct (decide (l = l0)) as [<- | Hne].
    + rewrite lookup_insert_eq in Hm. inversion Hm; subst.
      rewrite lookup_insert_eq. rewrite Eo in Ho0. inversion Ho0; subst.
      eexists; split; [reflexivity | apply empty_like_idem].
    + rewrite lookup_insert_ne in Hm by assumption.
      destruct (memo_kind _ _ I _ _ _ Hm Ho0) as (o' & Ho' & Hk).
      exists o'. split; [| assumption].
      rewrite lookup_insert_ne; [assumption |].
      intros ->. apply Hfresh. apply elem_of_dom. eauto.
  - intros l0 o0 l0' Hs Hn Hp. rewrite dom_insert.
    destruct (decide (l' = l0)) as [<- | Hne].
    + rewrite lookup_insert_eq in Hs. inversion Hs; subst.
      unfold points_to in Hp. rewrite children_empty_like in Hp.
      now apply elem_of_nil in Hp.
    + rewrite lookup_insert_ne in Hs by assumption.
      destruct (new_closed _ _ I _ _ _ Hs Hn Hp). split; [assumption | set_solver].
Qed.

Lemma copy_all_well h0 f :
  copies_well h0 f ->
  forall vs st vs' st',
    copying h0 st -> Forall (old_value h0) vs -> copy_all f vs st = Some (vs', st') ->
    copying h0 st'
    /\ memo st ⊆ memo st'
    /\ dom (store st) ⊆ dom (store st')
    /\ Forall (new_value h0 st') vs'
    /\ length vs' = length vs.
Proof.
  intros Hf. induction vs as [| v vs IH]; intros st vs' st' I Hold Hcopy; cbn in Hcopy.
  - inversion Hcopy; subst. refine (conj I (conj _ (conj _ (conj _ _)))); auto.
  - destruct (f v st) as [[v1 st1] |] eqn:E1; [| discriminate].
    destruct (copy_all f vs st1) as [[vs2 st2] |] eqn:E2; [| discriminate].
    inversion Hcopy; subst. inversion Hold; subst.
    destruct (Hf _ _ _ _ I H1 E1) as (I1 & M1 & D1 & N1 & _).
    destruct (IH _ _ _ I1 H2 E2) as (I2 & M2 & D2 & N2 & L2).
    refine (conj I2 (conj _ (conj _ (conj _ _)))).
    + etransitivity; eauto.
    + etransitivity; eauto.
    + constructor; [| assumption].
      intros l ->. destruct (N1 l eq_refl) as [A B]. split; [assumption |].
      apply D2, B.
    + cbn. now rewrite L2.
Qed.

Lemma deepcopy_well h0 fuel : closed h0 -> copies_well h0 (deepcopy fuel).
Proof.
  intros Hc. induction fuel as [| fuel IH]; intros v st v' st' I Hold H; [discriminate |].
  cbn in H. destruct v as [| x | l].
  - inversion H; subst.
    refine (conj I (conj _ (conj _ (conj _ _)))); auto; intros ? ?; discriminate.
  - inversion H; subst.
    refine (conj I (conj _ (conj _ (conj _ _)))); auto; intros ? ?; discriminate.
  - destruct (memo st !! l) as [l' |] eqn:Em.
    + inversion H; subst.
      refine (conj I (conj _ (conj _ (conj _ _)))); auto.
      * intros l0 [= <-]. exact (memo_fresh _ _ I _ _ Em).
      * intros l0 [= <-]. eauto.
    + pose proof (Hold l eq_refl) as Hl.
      rewrite (old_kept _ _ I l Hl) in H.
      destruct (h0 !! l) as [o |] eqn:Eo; [| discriminate].
      set (l' := fresh (dom (store st))) in *.
      assert (Hfresh : l' ∉ dom (store st)) by apply is_fresh.
      assert (Hnew : l' ∉ dom h0).
      { intros Hin. apply Hfresh. now apply (copying_dom _ _ I). }
      set (st1 := {| memo := <[l:=l']> (memo st);
                     store := <[l':=empty_like o]> (store st) |}) in *.
      assert (I1 : copying h0 st1) by (apply copying_alloc; assumption).
      destruct (copy_all (deepcopy fuel) (children o) st1) as [[vs st2] |] eqn:Ec;
        [| discriminate].
      inversion H; subst v' st'. clear H.
      destruct (copy_all_well h0 _ IH _ _ _ _ I1 (closed_children_old _ _ _ Hc Eo) Ec)
        as (I2 & M2 & D2 & N2 & L2).
      assert (Hl'2 : l' ∈ dom (store st2)).
      { apply D2. cbn. rewrite dom_insert. set_solver. }
      assert (Hm2 : memo st2 !! l = Some l').
      { eapply lookup_weaken; [| exact M2]. cbn. apply lookup_insert_eq. }
      refine (conj _ (conj _ (conj _ (conj _ _)))); [split |..]; cbn.
      * intros l0 Hl0. rewrite lookup_insert_ne; [apply (old_kept _ _ I2), Hl0 |].
        intros ->. contradiction.
      * apply (memo_keys _ _ I2).
      * intros l0 l0' Hm. rewrite dom_insert.
        destruct (memo_fresh _ _ I2 _ _ Hm). split; [assumption | set_solver].
      * intros l0 l0' o0 Hm Ho0.
        destruct (memo_kind _ _ I2 _ _ _ Hm Ho0) as (o' & Ho' & Hk).
        destruct (decide (l' = l0')) as [<- | Hne].
        -- rewrite lookup_insert_eq. eexists; split; [reflexivity |].
           rewrite empty_like_with_children.
           destruct (memo_kind _ _ I2 _ _ _ Hm2 Eo) as (o2 & Ho2 & Hk2).
           rewrite Ho2 in Ho'. inversion Ho'; subst. congruence.
        -- rewrite lookup_insert_ne by assumption. eauto.
      * intros l0 o0 l0' Hs Hn Hp. rewrite dom_insert.
        destruct (decide (l' = l0)) as [<- | Hne].
        -- rewrite lookup_insert_eq in Hs. inversion Hs; subst.
           apply children_with_children_sub in Hp.
           rewrite Forall_forall in N2.
           destruct (N2 _ Hp l0' eq_refl). split; [assumption | set_solver].
        -- rewrite lookup_insert_ne in Hs by assumption.
           destruct (new_closed _ _ I2 _ _ _ Hs Hn Hp). split; [assumption | set_solver].
      * etransitivity; [| exact M2]. cbn. apply insert_subseteq. assumption.
      * rewrite dom_insert. etransitivity; [| etransitivity; [exact D2 |]]; cbn.
        -- rewrite dom_insert. set_solver.
        -- set_solver.
      * intros l0 [= <-]. split; [assumption |]. cbn. rewrite dom_insert. set_solver.
      * intros l0 [= <-]. eauto.
Qed.

Lemma pending_mono h0 st st' : memo st ⊆ memo st' -> pending h0 st' <= pending h0 st.
Proof.
  intros H. apply subseteq_size. apply subseteq_dom in H.
  intros l Hl. apply elem_of_difference in Hl as [Hl0 Hl1].
  apply elem_of_difference. split; [assumption |].
  intros Hin. apply Hl1, H, Hin.
Qed.

Lemma pending_alloc h0 st l l' :
  l ∈ dom h0 -> memo st !! l = None ->
  pending h0 {| memo := <[l := l']> (memo st); store := store st |} < pending h0 st.
Proof.
  intros Hl Hm. apply subset_size. cbn.
  apply not_elem_of_dom in Hm.
  split.
  - intros x Hx. apply elem_of_difference in Hx as [Hx0 Hx1].
    apply elem_of_difference. split; [assumption |].
    intros Hin. apply Hx1. rewrite dom_insert. apply elem_of_union. now right.
  - intros Hsub. specialize (Hsub l).
    assert (Hin : l ∈ dom h0 ∖ dom (memo st)) by (apply elem_of_difference; auto).
    apply Hsub in Hin. apply elem_of_difference in Hin as [_ Hin].
    apply Hin. rewrite dom_insert. apply elem_of_union. left. now apply elem_of_singleton.
Qed.

Lemma copy_all_total h0 f n :
  copies_well h0 f ->
  (forall v st, copying h0 st -> old_value h0 v -> pending h0 st < n -> is_Some (f v st)) ->
  forall vs st,
    copying h0 st -> Forall (old_value h0) vs -> pending h0 st < n ->
    is_Some (copy_all f vs st).
Proof.
  intros Hw Hf. induction vs as [| v vs IH]; intros st I Hold Hn; cbn.
  - eauto.
  - inversion Hold; subst.
    destruct (Hf v st I H1 Hn) as [[v1 st1] E1]. rewrite E1.
    destruct (Hw _ _ _ _ I H1 E1) as (I1 & M1 & _).
    destruct (IH st1 I1 H2) as [[vs2 st2] E2].
    { pose proof (pending_mono h0 _ _ M1). lia. }
    rewrite E2. eauto.
Qed.

Lemma deepcopy_total h0 :
  closed h0 ->
  forall fuel v st,
    copying h0 st -> old_value h0 v -> pending h0 st < fuel ->
    is_Some (deepcopy fuel v st).
Proof.
  intros Hc. induction fuel as [| fuel IH]; intros v st I Hold Hn; [lia |].
  cbn. destruct v as [| x | l]; [eauto | eauto |].
  destruct (memo st !! l) as [l' |] eqn:Em; [eauto |].
  pose proof (Hold l eq_refl) as Hl.
  rewrite (old_kept _ _ I l Hl).
  destruct (h0 !! l) as [o |] eqn:Eo.
  2: { apply elem_of_dom in Hl. rewrite Eo in Hl. now destruct Hl. }
  pose proof (copying_alloc h0 st l o I Eo) as I1.
  destruct (copy_all_total h0 (deepcopy fuel) fuel (deepcopy_well h0 fuel Hc) IH
              (children o) _ I1 (closed_children_old _ _ _ Hc Eo)) as [[vs st2] E2].
  { pose proof (pending_alloc h0 st l (fresh (dom (store st))) Hl Em) as Hlt.
    unfold pending in *. cbn in *. lia. }
  rewrite E2. eauto.
Qed.

Lemma reach_new h0 h l l' :
  new_part_closed h0 h -> l ∉ dom h0 -> reach h l l' -> l' ∉ dom h0.
Proof.
  intros Hn Hl Hr. induction Hr as [l | l o l1 l2 Ho Hp Hr IH]; [assumption |].
  apply IH. exact (Hn _ _ _ Ho Hl Hp).
Qed.

Lemma reach_in_dom h l l' : closed h -> l ∈ dom h -> reach h l l' -> l' ∈ dom h.
Proof.
  intros Hc Hl Hr. induction Hr as [l | l o l1 l2 Ho Hp Hr IH]; [assumption |].
  apply IH. exact (Hc _ _ _ Ho Hp).
Qed.

Lemma copying_new_part_closed h0 st : copying h0 st -> new_part_closed h0 (store st).
Proof.
  intros I l o l' Ho Hl Hp. exact (proj1 (new_closed _ _ I _ _ _ Ho Hl Hp)).
Qed.

Lemma children_assoc_set name v attrs w :
  w ∈ (assoc_set name v attrs).*2 -> w = v \/ w ∈ attrs.*2.
Proof.
  induction attrs as [| [k u] rest IH]; cbn.
  - intros H. apply list_elem_of_singleton in H. now left.
  - destruct (String.eqb k name); cbn; intros H; apply elem_of_cons in H as [-> | H].
    + now left.
    + right. apply elem_of_cons. now right.
    + right. apply elem_of_cons. now left.
    + destruct (IH H) as [-> | H']; [now left |]. right. apply elem_of_cons. now right.
Qed.

(** Assigning a number to an attribute of a new object. *)
Lemma setattr_apart h0 h t name x h1 :
  (forall l, l ∈ dom h0 -> h !! l = h0 !! l) ->
  new_part_closed h0 h ->
  t ∉ dom h0 ->
  setattr t name (VNum x) h = Some h1 ->
  apart h0 h1 t.
Proof.
  intros Hold Hn Ht Hs. unfold setattr in Hs.
  destruct (h !! t) as [[attrs | items] |] eqn:Et; try discriminate.
  inversion Hs; subst h1. clear Hs.
  assert (Hn1 : new_part_closed h0 (<[t := OInstance (assoc_set name (VNum x) attrs)]> h)).
  { intros l o l' Ho Hl Hp. destruct (decide (t = l)) as [<- | Hne].
    - rewrite lookup_insert_eq in Ho. inversion Ho; subst o.
      apply children_assoc_set in Hp as [Hp | Hp]; [discriminate |].
      exact (Hn t (OInstance attrs) l' Et Ht Hp).
    - rewrite lookup_insert_ne in Ho by assumption. exact (Hn _ _ _ Ho Hl Hp). }
  split.
  - intros l Hl. rewrite lookup_insert_ne; [apply Hold, Hl |].
    intros ->. contradiction.
  - intros l Hr. exact (reach_new _ _ _ _ Hn1 Ht Hr).
Qed.

(** A method call on an object apart from [h0] leaves it apart. *)
Lemma method_apart (m : loc -> heap -> heap) h0 h t :
  method_footprint m -> apart h0 h t -> apart h0 (m t h) t.
Proof.
  intros Hm [Hold Hr]. destruct (Hm t h) as [Hframe Hcap].
  assert (Hdom : forall l, l ∈ dom h0 -> l ∈ dom h).
  { intros l Hl. apply elem_of_dom. rewrite (Hold l Hl). now apply elem_of_dom. }
  split.
  - intros l Hl. rewrite <- (Hold l Hl). apply Hframe; [auto |].
    intros Hreach. exact (Hr l Hreach Hl).
  - intros l Hreach. destruct (Hcap l Hreach) as [H | H]; [auto |].
    intros Hl. apply H. auto.
Qed.

(** Copying a list whose first item is an instance: the copy is a new
    list whose first item is a new instance. *)
Lemma deepcopy_list h0 fuel MyTypes a0 rest attrs :
  closed h0 ->
  h0 !! MyTypes = Some (OList (VRef a0 :: rest)) ->
  h0 !! a0 = Some (OInstance attrs) ->
  size h0 < fuel ->
  exists NewTypes t0 vs attrs' st,
    deepcopy fuel (VRef MyTypes) {| memo := ∅; store := h0 |} = Some (VRef NewTypes, st)
    /\ copying h0 st
    /\ (NewTypes ∉ dom h0)
    /\ store st !! NewTypes = Some (OList (VRef t0 :: vs))
    /\ (t0 ∉ dom h0)
    /\ store st !! t0 = Some (OInstance attrs').
Proof.
  intros Hc HM Ha Hfuel.
  pose proof (copying_start h0) as I0.
  assert (HoldM : old_value h0 (VRef MyTypes)).
  { intros l [= <-]. apply elem_of_dom. eauto. }
  assert (Hp : pending h0 {| memo := ∅; store := h0 |} < fuel).
  { unfold pending. cbn. rewrite dom_empty_L, difference_empty_L, size_dom. exact Hfuel. }
  destruct (deepcopy_total h0 Hc fuel _ _ I0 HoldM Hp) as [[v st] E].
  destruct (deepcopy_well h0 fuel Hc _ _ _ _ I0 HoldM E) as (I & _ & _ & Hnew & Hv).
  destruct (Hv MyTypes eq_refl) as (NewTypes & -> & HmM).
  destruct fuel as [| fuel]; [discriminate |].
  pose proof E as E0.
  cbn in E. rewrite lookup_empty, HM in E. cbn [children] in E.
  set (st1 := {| memo := <[MyTypes := fresh (dom h0)]> ∅;
                 store := <[fresh (dom h0) := empty_like (OList (VRef a0 :: rest))]> h0 |}) in *.
  assert (I1 : copying h0 st1) by (apply (copying_alloc h0 _ MyTypes _ I0 HM)).
  cbn [copy_all] in E.
  destruct (deepcopy fuel (VRef a0) st1) as [[v1 st1'] |] eqn:E1; [| discriminate].
  destruct (copy_all (deepcopy fuel) rest st1') as [[vs st2] |] eqn:E2; [| discriminate].
  inversion E; subst NewTypes st. clear E.
  pose proof (closed_children_old _ _ _ Hc HM) as Hch. cbn in Hch.
  inversion Hch as [| ? ? Hold0 Holdr]; subst.
  destruct (deepcopy_well h0 fuel Hc _ _ _ _ I1 Hold0 E1) as (I1' & _ & _ & _ & Hv1).
  destruct (Hv1 a0 eq_refl) as (t0 & -> & Hm0).
  destruct (copy_all_well h0 _ (deepcopy_well h0 fuel Hc) _ _ _ _ I1' Holdr E2)
    as (_ & M2 & _).
  assert (Hm2 : memo st2 !! a0 = Some t0) by (eapply lookup_weaken; eauto).
  destruct (memo_kind _ _ I _ _ _ Hm2 Ha) as (o' & Ho' & Hk).
  destruct (memo_fresh _ _ I _ _ Hm2) as [Ht0 _].
  destruct (Hnew _ eq_refl) as [HN _].
  destruct o' as [attrs' | items']; [| discriminate].
  eexists (fresh (dom h0)), t0, vs, attrs', _.
  split; [exact E0 |]. split; [exact I |]. split; [exact HN |].
  split; [cbn; apply lookup_insert_eq |]. split; [exact Ht0 | exact Ho'].
Qed.

Lemma closed_check_closed h : closed_check h -> closed h.
Proof.
  intros H l o l' Ho Hp. specialize (H l o Ho). cbn in H.
  rewrite Forall_forall in H. specialize (H _ Hp). cbn in H.
  now apply elem_of_dom.
Qed.

Lemma assoc_get_elem name attrs v : assoc_get name attrs = Some v -> v ∈ attrs.*2.
Proof.
  induction attrs as [| [k w] rest IH]; cbn; [discriminate |].
  destruct (String.eqb k name).
  - intros [= ->]. apply elem_of_cons. now left.
  - intros H. apply elem_of_cons. right. auto.
Qed.

Lemma reach_overwrite_numbers h p xs a l :
  reach (<[p := OList (VNum <$> xs)]> h) a l -> reach h a l.
Proof.
  intros Hr. induction Hr as [l | l o l1 l2 Ho Hpt Hr IH]; [apply reach_refl |].
  destruct (decide (p = l)) as [<- | Hne].
  - rewrite lookup_insert_eq in Ho. inversion Ho; subst o.
    unfold points_to in Hpt. cbn in Hpt.
    apply list_elem_of_fmap in Hpt as (y & Hy & _). discriminate.
  - rewrite lookup_insert_ne in Ho by assumption.
    eapply reach_step; eauto.
Qed.

Lemma store_numbers_footprint name xs : method_footprint (store_numbers name xs).
Proof.
  intros self h. unfold store_numbers, getattr.
  destruct (h !! self) as [[attrs | items] |] eqn:Es; [| now split; auto ..].
  destruct (assoc_get name attrs) as [[| x | p] |] eqn:Ea; [now split; auto .. | | now split; auto].
  assert (Hp : reach h self p).
  { eapply reach_step; [exact Es | | apply reach_refl].
    apply (assoc_get_elem _ _ _ Ea). }
  split.
  - intros l Hl Hn. rewrite lookup_insert_ne; [reflexivity |].
    intros ->. contradiction.
  - intros l Hr. left. eapply reach_overwrite_numbers, Hr.
Qed.

Section ExperimentFacts.

Variables solve initializeSim simulate : loc -> heap -> heap.

Hypothesis solve_footprint : method_footprint solve.

Hypothesis initializeSim_footprint : method_footprint initializeSim.

Hypothesis simulate_footprint : method_footprint simulate.

(** C10.  [NewTypes] is a deep copy of [MyTypes]: the experiment runs to
    its end, [NewTypes] is a new list, and after [NewTypes[0].DiscFac = 0.8]
    and the calls of [solve], [initializeSim] and [simulate] on
    [NewTypes[0]] every object reachable from [MyTypes] (the list, the
    agent types, their solutions and simulated arrays) is exactly as it
    was before the copy; in particular every attribute of every type in
    [MyTypes] reads as before. *)
Theorem very_impatient_leaves_MyTypes (h : heap) (MyTypes a0 : loc)
    (rest : list value) (attrs : list (string * value)) :
  closed h ->
  h !! MyTypes = Some (OList (VRef a0 :: rest)) ->
  h !! a0 = Some (OInstance attrs) ->
  exists NewTypes h',
    very_impatient solve initializeSim simulate (S (size h)) MyTypes h = Some (NewTypes, h')
    /\ NewTypes <> MyTypes
    /\ (forall l, reach h MyTypes l -> h' !! l = h !! l)
    /\ (forall i t name,
          getitem MyTypes i h = Some (VRef t) ->
          getitem MyTypes i h' = Some (VRef t)
          /\ getattr t name h' = getattr t name h).
Proof.
  intros Hc HM Ha.
  destruct (deepcopy_list h (S (size h)) MyTypes a0 rest attrs Hc HM Ha)
    as (NewTypes & t0 & vs & attrs' & st & E & I & HN & HNl & Ht0 & Ht0l); [lia |].
  assert (HMdom : MyTypes ∈ dom h) by (apply elem_of_dom; eauto).
  destruct (setattr t0 "DiscFac" (VNum (8 # 10)) (store st)) as [h1 |] eqn:Es.
  2: { unfold setattr in Es. now rewrite Ht0l in Es. }
  pose proof (setattr_apart h (store st) t0 _ _ h1 (old_kept _ _ I)
                (copying_new_part_closed _ _ I) Ht0 Es) as A1.
  pose proof (method_apart solve _ _ _ solve_footprint A1) as A2.
  pose proof (method_apart initializeSim _ _ _ initializeSim_footprint A2) as A3.
  pose proof (method_apart simulate _ _ _ simulate_footprint A3) as [Hold _].
  exists NewTypes, (simulate t0 (initializeSim t0 (solve t0 h1))).
  split; [| split; [| split]].
  - unfold very_impatient. rewrite E. cbn [ref_of].
    unfold getitem. rewrite HNl. cbn. now rewrite Es.
  - intros ->. contradiction.
  - intros l Hr. apply Hold. exact (reach_in_dom h MyTypes l Hc HMdom Hr).
  - intros i t name Hi. unfold getitem, getattr in *.
    rewrite (Hold MyTypes HMdom). split; [assumption |].
    rewrite HM in Hi. rewrite Hold; [reflexivity |].
    apply (Hc MyTypes _ t HM). unfold points_to. cbn [children].
    eapply list_elem_of_lookup_2, Hi.
Qed.

End ExperimentFacts.

Lemma two_types_closed : closed two_types.
Proof. apply closed_check_closed. apply (bool_decide_unpack _). vm_compute. exact I. Qed.

Lemma very_impatient_leaves_MyTypes_witness :
  exists NewTypes h',
    very_impatient example_solve example_initializeSim example_simulate
      (S (size two_types)) 1%positive two_types = Some (NewTypes, h')
    /\ NewTypes <> 1%positive
    /\ (forall l, reach two_types 1%positive l -> h' !! l = two_types !! l)
    /\ (forall i t name,
          getitem 1%positive i two_types = Some (VRef t) ->
          getitem 1%positive i h' = Some (VRef t)
          /\ getattr t name h' = getattr t name two_types).
Proof.
  apply (very_impatient_leaves_MyTypes example_solve example_initializeSim example_simulate
           (store_numbers_footprint _ _) (store_numbers_footprint _ _)
           (store_numbers_footprint _ _)
           two_types 1%positive 2%positive [VRef 3%positive]
           [("DiscFac", VNum (9771 # 10000)); ("seed", VNum 0);
            ("solution", VRef 4%positive); ("aLvlNow", VRef 5%positive)]).
  - exact two_types_closed.
  - reflexivity.
  - reflexivity.
Defined.

(** With a shallow copy the assignment reaches the original agent type. *)
Lemma shallow_copy_shares :
  (match shallow_copy 1%positive two_types with
   | Some (NewTypes, h1) =>
       match getitem NewTypes 0 h1 with
       | Some (VRef t0) =>
           match setattr t0 "DiscFac" (VNum (8 # 10)) h1 with
           | Some h2 =>
               match getitem 1%positive 0 h2 with
               | Some (VRef a0) => getattr a0 "DiscFac" h2
               | _ => None
               end
           | None => None
           end
       | _ => None
       end
   | None => None
   end) = Some (VNum (8 # 10)).
Proof. vm_compute. reflexivity. Qed.

End Impatient.

(** ** Cross-sectional statistics: Lorenz shares *)

Module Aggregator.

(** The population as (value, weight) pairs. *)
Abbreviation population := (list (Q * Q)).



(** Total weight of the population. *)
Fixpoint total_weight (l : population) : Q :=
  match l with
  | [] => 0
  | (_, w) :: l' => w + total_weight l'
  end.

(** Total value held by the population. *)
Fixpoint total_value (l : population) : Q :=
  match l with
  | [] => 0
  | (v, w) :: l' => v * w + total_value l'
  end.











(** *** Lemmas *)












Lemma total_weight_perm l l' : Permutation l l' -> total_weight l == total_weight l'.
Proof.
  induction 1 as [| [v w] l l' _ IH | [v w] [v' w'] l | l l' l'' _ IH1 _ IH2]; cbn.
  - reflexivity.
  - rewrite IH. reflexivity.
  - ring.
  - now rewrite IH1.
Qed.

Lemma total_value_perm l l' : Permutation l l' -> total_value l == total_value l'.
Proof.
  induction 1 as [| [v w] l l' _ IH | [v w] [v' w'] l | l l' l'' _ IH1 _ IH2]; cbn.
  - reflexivity.
  - rewrite IH. reflexivity.
  - ring.
  - now rewrite IH1.
Qed.
























End Aggregator.

(** ** The solver's convergence loop *)

Module Solver.

(** Horizon: finitely many periods, or the stationary problem. *)
Inductive Horizon :=
| Finite (T : nat)
| Infinite.

(** Mean, standard deviation and number of grid points of a shock. *)
Record ShockDescriptor := {
  shk_mean : Q;
  shk_std : Q;
  shk_count : nat
}.

Record ParameterSet := {
  CRRA : Q;
  DiscFac : Q;
  Rfree : Q;
  PermGroFac : list Q;
  PermShk : ShockDescriptor;
  TranShk : ShockDescriptor;
  BoroCnst : Q;
  horizon : Horizon
}.

(** A policy function on the discretised grid: market resources paired
    with consumption, interpolated between the points. *)
Abbreviation PolicyFunction := (list (Q * Q)).

(** The terminal period: consume everything. *)
Definition consume_all (grid : list Q) : PolicyFunction :=
  (fun m => (m, m)) <$> grid.

(** Sup-norm of the difference of two policies on a common grid. *)
Fixpoint sup_norm_diff (f g : PolicyFunction) : Q :=
  match f, g with
  | (_, c) :: f', (_, c') :: g' => Qmax (Qabs (c - c')) (sup_norm_diff f' g')
  | _, _ => 0
  end.

Inductive failure :=
| NonConvergence (iterations : nat).

Section Solve.

(** The one-period backward step.  How it interpolates and integrates
    over shocks is left open by the specification. *)
Variable backward_step : ParameterSet -> PolicyFunction -> PolicyFunction.


(** The same loop as a function: iterate the backward step from
    [current], which [done] steps have produced, for at most [remaining]
    further steps. *)
Fixpoint iterate_until_converged (P : ParameterSet) (tolerance : Q)
    (remaining done : nat) (current : PolicyFunction)
    : failure + (PolicyFunction * nat) :=
  match remaining with
  | O => inl (NonConvergence done)
  | S remaining' =>
      let next := backward_step P current in
      if Qlt_le_dec (sup_norm_diff next current) tolerance
      then inr (next, S done)
      else iterate_until_converged P tolerance remaining' (S done) next
  end.

(** Backward induction over [T] periods from the terminal policy; the
    result is indexed by period, [0] first. *)
Fixpoint backward_induction (P : ParameterSet) (T : nat) (terminal : PolicyFunction)
    : list PolicyFunction :=
  match T with
  | O => []
  | S T' =>
      match backward_induction P T' terminal with
      | [] => [backward_step P terminal]
      | next :: later => backward_step P next :: next :: later
      end
  end.

(** Modelled from the spec: the solver is the library's and is not among
    the sources.  The specification: for a finite horizon, backward
    induction from the consume-all terminal period; for the infinite
    horizon, the same backward step iterated until the sup-norm
    difference of successive policies is below the tolerance, or until the
    maximum iteration count is reached, which is reported as the
    distinguished failure [NonConvergence]. *)
Definition solve (P : ParameterSet) (grid : list Q) (tolerance : Q) (max_iterations : nat)
    : failure + list PolicyFunction :=
  match horizon P with
  | Finite T => inr (backward_induction P T (consume_all grid))
  | Infinite =>
      match iterate_until_converged P tolerance max_iterations 0 (consume_all grid) with
      | inl e => inl e
      | inr (policy, _) => inr [policy]
      end
  end.


End Solve.




(** *** A concrete run *)



(** *** Lemmas *)

Lemma sup_norm_diff_nil_l g : sup_norm_diff [] g = 0.
Proof. reflexivity. Qed.

Lemma sup_norm_diff_nil_r f : sup_norm_diff f [] = 0.
Proof. destruct f as [| [m c] f]; reflexivity. Qed.

Lemma sup_norm_diff_cons m c f m' c' g :
  sup_norm_diff ((m, c) :: f) ((m', c') :: g)
  = Qmax (Qabs (c - c')) (sup_norm_diff f g).
Proof. reflexivity. Qed.

Lemma sup_norm_diff_nonneg f g : 0 <= sup_norm_diff f g.
Proof.
  revert g. induction f as [| [m c] f IH]; intros g.
  - rewrite sup_norm_diff_nil_l. lra.
  - destruct g as [| [m' c'] g]; [rewrite sup_norm_diff_nil_r; lra |].
    rewrite sup_norm_diff_cons. apply Q.max_le_iff. left. apply Qabs_nonneg.
Qed.



Section SolveFacts.

Variable backward_step : ParameterSet -> PolicyFunction -> PolicyFunction.






End SolveFacts.


End Solver.

(** ** The Lorenz-curve cell and its reference data *)

Module LorenzCell.

Local Close Scope Q_scope.

(** What a path names in the file system: a file, with its lines (text
    mode, the line ends taken off), or a directory. *)
Inductive entry :=
| RegularFile (lines : list string)
| Directory.

Abbreviation filesystem := (gmap string entry).

(** The [OSError]s that [open] raises, with [errno], [strerror] and
    [filename]; and whatever else the library may raise. *)
Inductive exn :=
| FileNotFoundError (errno : Z) (strerror filename : string)
| IsADirectoryError (errno : Z) (strerror filename : string)
| OtherError (msg : string).

Definition apostrophe : Ascii.ascii := Ascii.ascii_of_nat 39.
Definition double_quote : Ascii.ascii := Ascii.ascii_of_nat 34.
Definition backslash : Ascii.ascii := Ascii.ascii_of_nat 92.
Definition tab : Ascii.ascii := Ascii.ascii_of_nat 9.
Definition newline : Ascii.ascii := Ascii.ascii_of_nat 10.
Definition carriage_return : Ascii.ascii := Ascii.ascii_of_nat 13.

Fixpoint contains (c : Ascii.ascii) (s : string) : bool :=
  match s with
  | EmptyString => false
  | String c' s' => Ascii.eqb c c' || contains c s'
  end.

Definition hex_digit (n : nat) : Ascii.ascii :=
  Ascii.ascii_of_nat (if (n <? 10)%nat then 48 + n else 87 + n).

(** One character of [repr(s)] for a string quoted with [quote]. *)
Definition repr_char (quote c : Ascii.ascii) : string :=
  let n := Ascii.nat_of_ascii c in
  if Ascii.eqb c quote || Ascii.eqb c backslash then String backslash (String c EmptyString)
  else if Ascii.eqb c tab then String backslash "t"
  else if Ascii.eqb c newline then String backslash "n"
  else if Ascii.eqb c carriage_return then String backslash "r"
  else if (n <? 32)%nat || (n =? 127)%nat
       then String backslash
              ("x" +:+ String (hex_digit (n / 16)) (String (hex_digit (n mod 16)) EmptyString))
  else String c EmptyString.

Fixpoint repr_body (quote : Ascii.ascii) (s : string) : string :=
  match s with
  | EmptyString => EmptyString
  | String c s' => repr_char quote c +:+ repr_body quote s'
  end.

(** [repr(s)]: in apostrophes, or in double quotes when [s] holds an
    apostrophe and no double quote; the quote character, the backslash
    and control characters escaped.  (A string is taken byte by byte; a
    character outside ASCII is left as it is.) *)
Definition repr (s : string) : string :=
  let quote := if contains apostrophe s && negb (contains double_quote s)
               then double_quote else apostrophe in
  String quote (repr_body quote s +:+ String quote EmptyString).

(** [str(e)] *)
Definition message (e : exn) : string :=
  match e with
  | FileNotFoundError errno strerror filename
  | IsADirectoryError errno strerror filename =>
      "[Errno " +:+ pretty errno +:+ "] " +:+ strerror +:+ ": " +:+ repr filename
  | OtherError msg => msg
  end.


(** The states of [csv.reader] within a record. *)
Inductive reader_state :=
| StartRecord
| StartField
| InField
| InQuotedField
| QuoteInQuotedField.

(** The reader: its state, the field being read, and the fields of the
    record read so far. *)
Record reader := {
  state : reader_state;
  field : string;
  fields : list string
}.

Definition start : reader := {| state := StartRecord; field := EmptyString; fields := [] |}.

Definition add_char (c : Ascii.ascii) (next : reader_state) (r : reader) : reader :=
  {| state := next; field := field r +:+ String c EmptyString; fields := fields r |}.

Definition save_field (next : reader_state) (r : reader) : reader :=
  {| state := next; field := EmptyString; fields := fields r ++ [field r] |}.

(** One character of a line, in the default dialect: quote character
    the double quote, doubled inside a quoted field, not strict. *)
Definition process_char (delimiter c : Ascii.ascii) (r : reader) : reader :=
  match state r with
  | StartRecord | StartField =>
      if Ascii.eqb c double_quote
      then {| state := InQuotedField; field := field r; fields := fields r |}
      else if Ascii.eqb c delimiter then save_field StartField r
      else add_char c InField r
  | InField =>
      if Ascii.eqb c delimiter then save_field StartField r
      else add_char c InField r
  | InQuotedField =>
      if Ascii.eqb c double_quote
      then {| state := QuoteInQuotedField; field := field r; fields := fields r |}
      else add_char c InQuotedField r
  | QuoteInQuotedField =>
      if Ascii.eqb c double_quote then add_char c InQuotedField r
      else if Ascii.eqb c delimiter then save_field StartField r
      else add_char c InField r
  end.

Fixpoint process_line (delimiter : Ascii.ascii) (line : string) (r : reader) : reader :=
  match line with
  | EmptyString => r
  | String c line' => process_line delimiter line' (process_char delimiter c r)
  end.

(** The end of a line: it ends the record (an empty line gives a record
    of no field), unless a quoted field is open, which then goes on
    into the next line. *)
Definition end_of_line (r : reader) : option (list string) * reader :=
  match state r with
  | StartRecord => (Some (fields r), start)
  | InQuotedField => (None, add_char newline InQuotedField r)
  | _ => (Some (fields (save_field StartRecord r)), start)
  end.

(** The records of the lines that follow, with the reader in [r]; a
    quoted field left open at the end of the file is closed there. *)
Fixpoint read_records (delimiter : Ascii.ascii) (lines : list string) (r : reader)
    : list (list string) :=
  match lines with
  | [] =>
      match state r with
      | StartRecord => []
      | _ => [fields (save_field StartRecord r)]
      end
  | line :: lines' =>
      match end_of_line (process_line delimiter line r) with
      | (Some record, r') => record :: read_records delimiter lines' r'
      | (None, r') => read_records delimiter lines' r'
      end
  end.

(** [list(csv.reader(f, delimiter='\t'))] *)
Definition csv_rows (lines : list string) : list (list string) :=
  read_records tab lines start.

(** What the cell draws. *)
Inductive event :=
| Plot (xs ys : list Q) (style : string)
| Xlabel (s : string)
| Ylabel (s : string)
| Show.

(** The names the cell imports from the module. *)
Abbreviation module := (list Q * list Q)%type.

Section Cell.

(** The directory of the imported module. *)
Variable data_location : string.

(** The module body after it has read the actuarial table; it reads the
    other data files and ends by defining [SCF_wealth] and
    [SCF_weights]. *)
Variable rest_of_module : filesystem -> list (list string) -> exn + module.

(** [HARK.utilities.getLorenzShares(data, weights, percentiles)] *)
Variable getLorenzShares : list Q -> option (list Q) -> list Q -> exn + list Q.

(** [data_location + '/' + 'USactuarial.txt'] *)
Definition actuarial_path : string := data_location +:+ "/" +:+ "USactuarial.txt".






End Cell.


(** The error [open] raises for such a path. *)
Definition data_unavailable (fs : filesystem) (path : string) : exn :=
  match fs !! path with
  | Some Directory => IsADirectoryError 21 "Is a directory" path
  | _ => FileNotFoundError 2 "No such file or directory" path
  end.

(** The directory of the recorded run. *)
Definition recorded_location : string :=
  "/Volumes/Sync/Sys/OSX/linked/root/usr/local/bin/anaconda/lib/python3.6/site-packages/HARK/cstwMPC".

(** *** Lemmas *)




(** The message of the recorded run. *)
Lemma recorded_message :
  message (data_unavailable ∅ (actuarial_path recorded_location))
  = "[Errno 2] No such file or directory: '/Volumes/Sync/Sys/OSX/linked/root/usr/local/bin/anaconda/lib/python3.6/site-packages/HARK/cstwMPC/USactuarial.txt'".
Proof. vm_compute. reflexivity. Qed.

(** The reader on a few lines: tabs separate, an empty line is a record
    of no field, a quoted field keeps its tab. *)
Lemma csv_rows_examples :
  csv_rows [] = []
  /\ csv_rows ["0" +:+ String tab "0.006"; ""; "1" +:+ String tab ""]
     = [["0"; "0.006"]; []; ["1"; ""]]
  /\ csv_rows [String double_quote ("a" +:+ String tab ("b" +:+ String double_quote
                 (String tab "c")))]
     = [["a" +:+ String tab "b"; "c"]].
Proof. repeat split. Qed.




End LorenzCell.

(** ** More on [makeTBSplot]: what it writes, when it returns, what it draws *)

Module Plotting.

Import Np TBS.

(** The object a call of [solve()] leaves behind, returned or raised. *)
Definition left_by (o : outcome) : TractableConsumerType :=
  match o with
  | Returned a => a
  | Raised _ a => a
  end.

(** The four conditional blocks of [makeTBSplot], each by itself. *)
Definition employed_block (args : plot_args) : M unit :=
  let m := linspace (mMin args) (mMax args) 100 in
  when (plot_emp args)
    (sol <~ getattr "solution" solution ;;
     s0 <~ first sol ;;
     let c := cFunc s0 <$> m in
     let c := mask_zero m c in
     emit (Plot m c "-b")).

Definition sustainable_block (args : plot_args) : M unit :=
  when (plot_mSS args)
    (lo <~ sustainable (mMin args) ;;
     hi <~ sustainable (mMax args) ;;
     emit (Plot [mMin args; mMax args] [lo; hi] "--k")).

Definition retired_block (args : plot_args) : M unit :=
  let m := linspace (mMin args) (mMax args) 100 in
  when (plot_ret args)
    (sol <~ getattr "solution" solution ;;
     s0 <~ first sol ;;
     let c := cFunc_U s0 <$> m in
     emit (Plot m c "-g")).

Definition target_block (args : plot_args) : M unit :=
  when (show_targ args)
    (mT <~ getattr "mTarg" mTarg ;;
     cT <~ getattr "cTarg" cTarg ;;
     let targ_label := "$m^* =$" +:+ mystr mT +:+ "
$c^* =$" +:+ mystr cT in
     emit (Annotate targ_label (0, 0) (8 # 10, 5 # 100) "axes fraction")).

(** Everything after the [try] statement. *)
Definition after_try (args : plot_args) : M unit :=
  emit (Xlabel "Market resources $M_t$") ;;
  emit (Ylabel "Consumption $C_t$") ;;
  emit (Ylim (cMin args) (cMax args)) ;;
  emit (Xlim (mMin args) (mMax args)) ;;
  employed_block args ;;
  sustainable_block args ;;
  retired_block args ;;
  target_block args ;;
  emit Show ;;
  ret tt.

(** A computation that leaves [MyTBStype] alone and only adds to the
    output, never a [Show]. *)
Definition quiet {A} (c : M A) : Prop :=
  forall w,
    MyTBStype (snd (c w)) = MyTBStype w
    /\ exists new, output (snd (c w)) = output w ++ new /\ Show ∉ new.

(** The object holds what a ticked box needs. *)
Definition has_solution (a : TractableConsumerType) : bool :=
  match solution a with
  | Some (_ :: _) => true
  | _ => false
  end.

Definition has_line (a : TractableConsumerType) : bool :=
  match PermGroFacCmp a with
  | Some _ => negb (Qeq_bool (Rfree a) 0)
  | None => false
  end.

Definition has_targets (a : TractableConsumerType) : bool :=
  match mTarg a, cTarg a with
  | Some _, Some _ => true
  | _, _ => false
  end.

Definition ready (args : plot_args) (a : TractableConsumerType) : bool :=
  implb (plot_emp args) (has_solution a)
  && implb (plot_mSS args) (has_line a)
  && implb (plot_ret args) (has_solution a)
  && implb (show_targ args) (has_targets a).

(** [c] never writes to [MyTBStype]. *)
Definition keeps_object {A} (c : M A) : Prop :=
  forall w, MyTBStype (snd (c w)) = MyTBStype w.

(** [c] returns normally exactly when the object satisfies [b]. *)
Definition succeeds_when {A} (c : M A) (b : TractableConsumerType -> bool) : Prop :=
  forall w, (exists u, fst (c w) = inr u) <-> b (MyTBStype w) = true.

(** [c] leaves [MyTBStype] alone and only adds to the output; what it
    adds ends with the one [Show] when it returns, and holds no [Show]
    when it raises. *)
Definition shows_at_end (c : M unit) : Prop :=
  forall w,
    MyTBStype (snd (c w)) = MyTBStype w
    /\ exists new,
         output (snd (c w)) = output w ++ new
         /\ (fst (c w) = inr tt -> exists pre, new = pre ++ [Show] /\ Show ∉ pre)
         /\ (fst (c w) <> inr tt -> Show ∉ new).

(** The arguments with another value for [Rfree]. *)
Definition with_Rfree (r : Q) (args : plot_args) : plot_args :=
  {| arg_DiscFac := arg_DiscFac args; arg_CRRA := arg_CRRA args; arg_Rfree := r;
     arg_PermGroFac := arg_PermGroFac args; arg_UnempPrb := arg_UnempPrb args;
     mMax := mMax args; mMin := mMin args; cMin := cMin args; cMax := cMax args;
     plot_emp := plot_emp args; plot_ret := plot_ret args;
     plot_mSS := plot_mSS args; show_targ := show_targ args |}.

(** *** Lemmas *)

(** [makeTBSplot] is the four assignments, the [try], and the rest. *)
Lemma makeTBSplot_unfold solve args :
  makeTBSplot solve args
  = (update (set_DiscFac (arg_DiscFac args)) ;;
     update (set_CRRA (arg_CRRA args)) ;;
     update (set_PermGroFac (arg_PermGroFac args)) ;;
     update (set_UnempPrb (arg_UnempPrb args)) ;;
     try_except (call_solve solve)
       (emit (Print "Those parameter values violate a condition required for solution!")) ;;
     after_try args).
Proof. reflexivity. Qed.

(** The state in which the rest of the function starts: the object is
    what [solve()] left, and the message is printed if it raised. *)
Lemma makeTBSplot_after_solve solve args w :
  makeTBSplot solve args w
  = after_try args
      {| MyTBStype := left_by (solve (assign args (MyTBStype w)));
         output :=
           output w
           ++ match solve (assign args (MyTBStype w)) with
              | Returned _ => []
              | Raised _ _ =>
                  [Print "Those parameter values violate a condition required for solution!"]
              end |}.
Proof.
  rewrite makeTBSplot_unfold.
  repeat (rewrite bind_update; cbv beta).
  destruct (solve (assign args (MyTBStype w))) as [a' | e a'] eqn:E.
  - rewrite (bind_try_solve_returned solve _ _ _ a') by exact E.
    cbn [left_by MyTBStype output]. now rewrite app_nil_r.
  - rewrite (bind_try_solve_raised solve _ _ _ e a') by exact E.
    rewrite bind_emit. reflexivity.
Qed.

Lemma quiet_ret {A} (a : A) : quiet (ret a).
Proof. intros w. split; [reflexivity |]. exists []. split; [now rewrite app_nil_r | apply not_elem_of_nil]. Qed.

Lemma quiet_raise {A} (e : exn) : quiet (@raise A e).
Proof. intros w. split; [reflexivity |]. exists []. split; [now rewrite app_nil_r | apply not_elem_of_nil]. Qed.

Lemma quiet_read {A} (f : TractableConsumerType -> A) : quiet (read f).
Proof. intros w. split; [reflexivity |]. exists []. split; [now rewrite app_nil_r | apply not_elem_of_nil]. Qed.

Lemma quiet_getattr {A} name (f : TractableConsumerType -> option A) : quiet (getattr name f).
Proof.
  intros w. unfold getattr. destruct (f (MyTBStype w));
    (split; [reflexivity |]; exists []; split; [now rewrite app_nil_r | apply not_elem_of_nil]).
Qed.

Lemma quiet_first {A} (xs : list A) : quiet (first xs).
Proof. destruct xs; [apply quiet_raise | apply quiet_ret]. Qed.

Lemma quiet_divide a b : quiet (divide a b).
Proof. unfold divide. destruct (Qeq_bool b 0); [apply quiet_raise | apply quiet_ret]. Qed.

Lemma quiet_emit (e : event) : e <> Show -> quiet (emit e).
Proof.
  intros He w. split; [reflexivity |]. exists [e]. split; [reflexivity |].
  intros H. apply list_elem_of_singleton in H. congruence.
Qed.

Lemma quiet_bind {A B} (c : M A) (k : A -> M B) :
  quiet c -> (forall a, quiet (k a)) -> quiet (bind c k).
Proof.
  intros Hc Hk w. unfold bind.
  destruct (Hc w) as (Ho & new & Hout & Hnew).
  destruct (c w) as [[e | a] w1]; cbn [snd] in *.
  - split; [assumption |]. now exists new.
  - destruct (Hk a w1) as (Ho' & new' & Hout' & Hnew').
    split; [congruence |]. exists (new ++ new'). split.
    + rewrite Hout', Hout. now rewrite app_assoc.
    + intros H. apply elem_of_app in H as [H | H]; contradiction.
Qed.

Lemma quiet_when b (c : M unit) : quiet c -> quiet (when b c).
Proof. intros Hc. destruct b; [exact Hc | apply quiet_ret]. Qed.

Lemma quiet_sustainable m : quiet (sustainable m).
Proof.
  unfold sustainable.
  repeat (apply quiet_bind; [first [apply quiet_getattr | apply quiet_read | apply quiet_divide] | intros ?]).
  apply quiet_ret.
Qed.

Lemma quiet_employed_block args : quiet (employed_block args).
Proof.
  unfold employed_block. cbv zeta. apply quiet_when.
  apply quiet_bind; [apply quiet_getattr | intros sol].
  apply quiet_bind; [apply quiet_first | intros s0].
  apply quiet_emit. discriminate.
Qed.

Lemma quiet_sustainable_block args : quiet (sustainable_block args).
Proof.
  unfold sustainable_block. apply quiet_when.
  apply quiet_bind; [apply quiet_sustainable | intros lo].
  apply quiet_bind; [apply quiet_sustainable | intros hi].
  apply quiet_emit. discriminate.
Qed.

Lemma quiet_retired_block args : quiet (retired_block args).
Proof.
  unfold retired_block. cbv zeta. apply quiet_when.
  apply quiet_bind; [apply quiet_getattr | intros sol].
  apply quiet_bind; [apply quiet_first | intros s0].
  apply quiet_emit. discriminate.
Qed.

Lemma quiet_target_block args : quiet (target_block args).
Proof.
  unfold target_block. apply quiet_when.
  apply quiet_bind; [apply quiet_getattr | intros mT].
  apply quiet_bind; [apply quiet_getattr | intros cT].
  apply quiet_emit. discriminate.
Qed.

Lemma succeeds_emit e : succeeds_when (emit e) (fun _ => true).
Proof. intros w. split; [reflexivity | intros _; now exists tt]. Qed.

Lemma quiet_keeps_object {A} (c : M A) : quiet c -> keeps_object c.
Proof. intros H w. apply H. Qed.

Lemma emit_keeps_object e : keeps_object (emit e).
Proof. intros w. reflexivity. Qed.

Lemma succeeds_bind {A B} (c : M A) (k : A -> M B) b1 b2 :
  keeps_object c -> succeeds_when c b1 -> (forall a, succeeds_when (k a) b2) ->
  succeeds_when (bind c k) (fun a => b1 a && b2 a).
Proof.
  intros Hq H1 H2 w. unfold bind.
  specialize (H1 w). pose proof (Hq w) as Ho.
  destruct (c w) as [[e | a] w1]; cbn [fst snd] in *.
  - split.
    + intros [u Hu]. discriminate.
    + intros Hb. apply andb_true_iff in Hb as [Hb _].
      apply H1 in Hb as [u Hu]. discriminate.
  - pose proof (H2 a w1) as H2'. rewrite Ho in H2'. cbv beta.
    rewrite andb_true_iff, <- H2'.
    split; [intros Hb; split; [| exact Hb] | tauto].
    apply H1. eauto.
Qed.

Lemma succeeds_employed_block args :
  succeeds_when (employed_block args) (fun a => implb (plot_emp args) (has_solution a)).
Proof.
  intros w. unfold employed_block, when, has_solution. cbv zeta.
  destruct (plot_emp args); cbn [implb].
  - unfold bind, getattr, first, emit, ret, raise.
    destruct (solution (MyTBStype w)) as [[| s0 rest] |]; cbn [fst];
      (split; [intros [u Hu]; first [discriminate | reflexivity] | intros Hb; first [discriminate | now exists tt]]).
  - split; [reflexivity | intros _; now exists tt].
Qed.

Lemma succeeds_retired_block args :
  succeeds_when (retired_block args) (fun a => implb (plot_ret args) (has_solution a)).
Proof.
  intros w. unfold retired_block, when, has_solution. cbv zeta.
  destruct (plot_ret args); cbn [implb].
  - unfold bind, getattr, first, emit, ret, raise.
    destruct (solution (MyTBStype w)) as [[| s0 rest] |]; cbn [fst];
      (split; [intros [u Hu]; first [discriminate | reflexivity] | intros Hb; first [discriminate | now exists tt]]).
  - split; [reflexivity | intros _; now exists tt].
Qed.

Lemma succeeds_target_block args :
  succeeds_when (target_block args) (fun a => implb (show_targ args) (has_targets a)).
Proof.
  intros w. unfold target_block, when, has_targets.
  destruct (show_targ args); cbn [implb].
  - unfold bind, getattr, emit.
    destruct (mTarg (MyTBStype w)), (cTarg (MyTBStype w)); cbn [fst MyTBStype];
      (split; [intros [u Hu]; first [discriminate | reflexivity] | intros Hb; first [discriminate | now exists tt]]).
  - split; [reflexivity | intros _; now exists tt].
Qed.

Lemma sustainable_succeeds m w :
  (exists v, fst (sustainable m w) = inr v) <-> has_line (MyTBStype w) = true.
Proof.
  unfold has_line.
  destruct (PermGroFacCmp (MyTBStype w)) as [g |] eqn:Eg.
  - destruct (Qeq_bool (Rfree (MyTBStype w)) 0) eqn:ER; cbn [negb].
    + split; [| discriminate]. intros [v Hv]. exfalso. revert Hv.
      unfold sustainable, bind at 1, getattr at 1. rewrite Eg.
      unfold bind at 1, read at 1. unfold bind at 1, divide at 1. rewrite ER.
      cbn. discriminate.
    + split; [reflexivity |]. intros _.
      assert (HR : ~ Rfree (MyTBStype w) == 0).
      { intros H. apply Qeq_bool_iff in H. congruence. }
      rewrite (sustainable_value m g w Eg HR). cbn. eauto.
  - split; [| discriminate]. intros [v Hv]. exfalso. revert Hv.
    unfold sustainable, bind at 1, getattr at 1. rewrite Eg. cbn. discriminate.
Qed.

Lemma succeeds_sustainable_block args :
  succeeds_when (sustainable_block args) (fun a => implb (plot_mSS args) (has_line a)).
Proof.
  intros w. unfold sustainable_block, when.
  destruct (plot_mSS args); cbn [implb].
  - rewrite <- (sustainable_succeeds (mMin args) w).
    unfold bind.
    destruct (quiet_sustainable (mMin args) w) as [Ho _].
    pose proof (sustainable_succeeds (mMin args) w) as H1.
    destruct (sustainable (mMin args) w) as [[e | lo] w1]; cbn [fst snd] in *.
    + split; intros [u Hu]; discriminate.
    + pose proof (sustainable_succeeds (mMax args) w1) as H2.
      rewrite Ho in H2.
      destruct (sustainable (mMax args) w1) as [[e | hi] w2]; cbn [fst snd] in *.
      * split; [intros [u Hu]; discriminate |].
        intros _. assert (Hl : has_line (MyTBStype w) = true) by (apply H1; eauto).
        apply H2 in Hl as [v Hv]. discriminate.
      * split; [eauto | intros _; now exists tt].
  - split; [reflexivity | intros _; now exists tt].
Qed.

Lemma succeeds_ret {A} (a : A) : succeeds_when (ret a) (fun _ => true).
Proof. intros w. split; [reflexivity | intros _; now exists a]. Qed.

Lemma succeeds_ext {A} (c : M A) b b' :
  succeeds_when c b -> (forall a, b a = b' a) -> succeeds_when c b'.
Proof. intros H E w. rewrite <- E. apply H. Qed.

Lemma shows_at_end_show : shows_at_end (emit Show ;; ret tt).
Proof.
  intros w. split; [reflexivity |]. exists [Show]. split; [reflexivity |]. split.
  - intros _. exists []. split; [reflexivity | apply not_elem_of_nil].
  - intros H. now contradiction H.
Qed.

Lemma shows_at_end_bind {A} (c : M A) (k : A -> M unit) :
  quiet c -> (forall a, shows_at_end (k a)) -> shows_at_end (bind c k).
Proof.
  intros Hc Hk w. unfold bind.
  destruct (Hc w) as (Ho & new & Hout & Hnew).
  destruct (c w) as [[e | a] w1]; cbn [fst snd] in *.
  - split; [assumption |]. exists new. split; [assumption |]. split.
    + discriminate.
    + intros _. assumption.
  - destruct (Hk a w1) as (Ho' & new' & Hout' & Hok & Hfail).
    split; [congruence |]. exists (new ++ new'). split; [| split].
    + rewrite Hout', Hout. now rewrite app_assoc.
    + intros Hr. destruct (Hok Hr) as (pre & -> & Hpre).
      exists (new ++ pre). split; [now rewrite app_assoc |].
      intros H. apply elem_of_app in H as [H | H]; contradiction.
    + intros Hr H. apply elem_of_app in H as [H | H]; [contradiction |].
      exact (Hfail Hr H).
Qed.

Lemma after_try_shows_at_end args : shows_at_end (after_try args).
Proof.
  unfold after_try.
  repeat (apply shows_at_end_bind; [apply quiet_emit; discriminate | intros _]).
  apply shows_at_end_bind; [apply quiet_employed_block | intros _].
  apply shows_at_end_bind; [apply quiet_sustainable_block | intros _].
  apply shows_at_end_bind; [apply quiet_retired_block | intros _].
  apply shows_at_end_bind; [apply quiet_target_block | intros _].
  apply shows_at_end_show.
Qed.

Lemma after_try_succeeds args : succeeds_when (after_try args) (ready args).
Proof.
  unfold after_try.
  eapply succeeds_ext.
  - repeat (apply succeeds_bind; [apply emit_keeps_object | apply succeeds_emit | intros _]).
    apply succeeds_bind;
      [apply quiet_keeps_object, quiet_employed_block | apply succeeds_employed_block | intros _].
    apply succeeds_bind;
      [apply quiet_keeps_object, quiet_sustainable_block | apply succeeds_sustainable_block | intros _].
    apply succeeds_bind;
      [apply quiet_keeps_object, quiet_retired_block | apply succeeds_retired_block | intros _].
    apply succeeds_bind;
      [apply quiet_keeps_object, quiet_target_block | apply succeeds_target_block | intros _].
    apply succeeds_bind; [apply emit_keeps_object | apply succeeds_emit | intros _].
    apply succeeds_ret.
  - intros a. unfold ready. cbn.
    destruct (implb (plot_emp args) (has_solution a)),
             (implb (plot_mSS args) (has_line a)),
             (implb (plot_ret args) (has_solution a)),
             (implb (show_targ args) (has_targets a)); reflexivity.
Qed.

(** The object after a call is the one [solve()] left: nothing after the
    [try] statement writes to it, whether the call returns or raises. *)
Theorem makeTBSplot_object solve (args : plot_args) (w : world) :
  MyTBStype (snd (makeTBSplot solve args w))
  = left_by (solve (assign args (MyTBStype w))).
Proof.
  rewrite makeTBSplot_after_solve.
  now rewrite (proj1 (after_try_shows_at_end args _)).
Qed.

(** [makeTBSplot] returns normally exactly when the object [solve()]
    left holds what the ticked boxes read.  It only adds to the output,
    and [plt.show()] is reached, as the last thing, exactly then. *)
Theorem makeTBSplot_returns_iff_ready solve (args : plot_args) (w : world) :
  (fst (makeTBSplot solve args w) = inr tt
   <-> ready args (left_by (solve (assign args (MyTBStype w)))) = true)
  /\ exists new,
       output (snd (makeTBSplot solve args w)) = output w ++ new
       /\ (fst (makeTBSplot solve args w) = inr tt ->
           exists pre, new = pre ++ [Show] /\ Show ∉ pre)
       /\ (fst (makeTBSplot solve args w) <> inr tt -> Show ∉ new).
Proof.
  rewrite makeTBSplot_after_solve.
  set (w1 := {| MyTBStype := left_by (solve (assign args (MyTBStype w))); output := _ |}).
  split.
  - pose proof (after_try_succeeds args w1) as Hs.
    change (MyTBStype w1) with (left_by (solve (assign args (MyTBStype w)))) in Hs.
    rewrite <- Hs. split.
    + intros H. now exists tt.
    + intros [[] H]. exact H.
  - destruct (after_try_shows_at_end args w1) as (_ & new & Hout & Hok & Hfail).
    set (msg := match solve (assign args (MyTBStype w)) with
                | Returned _ => []
                | Raised _ _ =>
                    [Print "Those parameter values violate a condition required for solution!"]
                end) in *.
    assert (Hmsg : Show ∉ msg).
    { unfold msg. destruct (solve _); [apply not_elem_of_nil |].
      intros H. apply list_elem_of_singleton in H. discriminate. }
    exists (msg ++ new). split; [| split].
    + rewrite Hout. cbn [output w1]. now rewrite app_assoc.
    + intros Hr. destruct (Hok Hr) as (pre & -> & Hpre).
      exists (msg ++ pre). split; [now rewrite app_assoc |].
      intros H. apply elem_of_app in H as [H | H]; contradiction.
    + intros Hr H. apply elem_of_app in H as [H | H]; [contradiction |].
      exact (Hfail Hr H).
Qed.

(** The [Rfree] argument is never used: with any other value for it the
    call does the same, and the object handed to [solve()] still carries
    the interest factor it had before. *)
Theorem makeTBSplot_ignores_Rfree solve (r : Q) (args : plot_args) (w : world) :
  makeTBSplot solve (with_Rfree r args) w = makeTBSplot solve args w
  /\ Rfree (assign (with_Rfree r args) (MyTBStype w)) = Rfree (MyTBStype w).
Proof. destruct args. split; reflexivity. Qed.

Lemma linspace_length start stop num : length (linspace start stop num) = num.
Proof.
  unfold linspace. destruct num as [| [| n]]; cbv zeta.
  - reflexivity.
  - reflexivity.
  - rewrite length_insert, length_fmap, length_seq. reflexivity.
Qed.

Lemma linspace_first start stop num x :
  linspace start stop (S (S num)) !! 0%nat = Some x -> x == start.
Proof.
  unfold linspace. cbv zeta.
  rewrite list_lookup_insert_ne by (cbn; lia).
  cbn. intros [= <-]. ring.
Qed.

(** The employed curve as plotted: one value per grid point, the
    consumption function's value there, except 0 wherever the grid point
    is 0; so with [mMin = 0] the curve starts at 0 whatever the
    consumption function returns there. *)
Theorem employed_curve_at_zero (f : Q -> Q) (lo hi : Q) (i : nat) (mi : Q) :
  linspace lo hi 100 !! i = Some mi ->
  length (mask_zero (linspace lo hi 100) (f <$> linspace lo hi 100)) = 100%nat
  /\ mask_zero (linspace lo hi 100) (f <$> linspace lo hi 100) !! i
     = Some (if Qeq_bool mi 0 then 0 else f mi)
  /\ (lo == 0 ->
      mask_zero (linspace lo hi 100) (f <$> linspace lo hi 100) !! 0%nat = Some 0).
Proof.
  intros Hi. split; [| split].
  - pose proof (linspace_length lo hi 100) as Hl.
    revert Hl. generalize (linspace lo hi 100). intros m Hm.
    rewrite <- Hm. clear. induction m as [| m0 m IH]; cbn; [reflexivity |].
    now rewrite IH.
  - apply mask_zero_lookup; [exact Hi |].
    rewrite list_lookup_fmap, Hi. reflexivity.
  - intros Hlo.
    destruct (linspace lo hi 100 !! 0%nat) as [m0 |] eqn:E0.
    + rewrite (mask_zero_lookup _ _ 0 m0 (f m0) E0)
        by (rewrite list_lookup_fmap, E0; reflexivity).
      apply linspace_first in E0.
      assert (H0 : Qeq_bool m0 0 = true) by (apply Qeq_bool_iff; lra).
      now rewrite H0.
    + apply lookup_ge_None in E0. rewrite linspace_length in E0. lia.
Qed.

Lemma employed_curve_at_zero_witness :
  length (mask_zero (linspace 0 50 100) ((fun m => 1 + m) <$> linspace 0 50 100)) = 100%nat
  /\ mask_zero (linspace 0 50 100) ((fun m => 1 + m) <$> linspace 0 50 100) !! 99%nat
     = Some (if Qeq_bool 50 0 then 0 else (fun m => 1 + m) 50)
  /\ (0 == 0 ->
      mask_zero (linspace 0 50 100) ((fun m => 1 + m) <$> linspace 0 50 100) !! 0%nat
      = Some 0).
Proof.
  apply (employed_curve_at_zero (fun m => 1 + m) 0 50 99 50).
  reflexivity.
Defined.

End Plotting.

(** ** [makeTBSplot] when [solve()] raises *)

Module SolveRaises.

Import Np TBS Plotting.

(** *** Lemmas *)

(** C9, amended.  When [solve()] raises on the newly assigned parameter
    values, whatever it raises and in whatever state [a'] it leaves the
    object: the object was handed to [solve()] with the new [DiscFac],
    [CRRA], [PermGroFac] and [UnempPrb] and with [Rfree], [solution],
    [PermGroFacCmp] and the targets as the last call left them; the
    message is printed and nothing is rolled back, the object stays as
    [solve()] left it; the function returns normally exactly when that
    object holds what the ticked boxes read, and fails itself with
    [AttributeError] when the employed curve is asked for and no
    solution is there; and what is drawn is computed from that object.
    So what [solve()] did not write before it raised is drawn as the
    last successful call left it, and what it did write is drawn
    anew. *)
Theorem makeTBSplot_solve_raises (solve : TractableConsumerType -> outcome)
    (a a' : TractableConsumerType) (args : plot_args) (e : exn) (out : list event) :
  solve (assign args a) = Raised e a' ->
  let r := makeTBSplot solve args {| MyTBStype := a; output := out |} in
  (DiscFac (assign args a) = arg_DiscFac args
   /\ CRRA (assign args a) = arg_CRRA args
   /\ PermGroFac (assign args a) = arg_PermGroFac args
   /\ UnempPrb (assign args a) = arg_UnempPrb args)
  /\ (Rfree (assign args a) = Rfree a
      /\ solution (assign args a) = solution a
      /\ PermGroFacCmp (assign args a) = PermGroFacCmp a
      /\ mTarg (assign args a) = mTarg a
      /\ cTarg (assign args a) = cTarg a)
  /\ MyTBStype (snd r) = a'
  /\ (exists new,
        output (snd r)
        = out ++ [Print "Those parameter values violate a condition required for solution!"]
              ++ new)
  /\ (fst r = inr tt <-> ready args a' = true)
  /\ (forall s0 rest g mT cT,
        solution a' = Some (s0 :: rest) ->
        PermGroFacCmp a' = Some g ->
        mTarg a' = Some mT ->
        cTarg a' = Some cT ->
        ~ Rfree a' == 0 ->
        r = (inr tt,
             {| MyTBStype := a';
                output :=
                  out
                  ++ [Print "Those parameter values violate a condition required for solution!"]
                  ++ drawing args s0 g (Rfree a') mT cT |}))
  /\ (solution a' = None -> plot_emp args = true ->
      fst r = inl (AttributeError "solution")).
Proof.
  intros Hs r.
  split; [apply assign_params |]. split; [apply assign_frame |].
  assert (Er : r = after_try args
                     {| MyTBStype := a';
                        output := out ++ [Print "Those parameter values violate a condition required for solution!"] |}).
  { unfold r. rewrite makeTBSplot_after_solve. cbn [MyTBStype output]. now rewrite Hs. }
  set (w1 := {| MyTBStype := a'; output := _ |}) in Er.
  destruct (after_try_shows_at_end args w1) as (Hobj & new & Hout & _).
  split; [rewrite Er; exact Hobj |].
  split.
  { exists new. rewrite Er, Hout. cbn [output w1]. now rewrite <- app_assoc. }
  split.
  { rewrite Er. pose proof (after_try_succeeds args w1) as H. cbn [MyTBStype w1] in H.
    rewrite <- H. split; [intros E; now exists tt | intros [[] E]; exact E]. }
  split.
  { intros s0 rest g mT cT Hsol Hg HmT HcT HR. unfold r.
    exact (makeTBSplot_after_failed_solve solve a a' args e out s0 rest g mT cT
             Hs Hsol Hg HmT HcT HR). }
  intros Hsol Hemp. unfold r.
  exact (makeTBSplot_no_solution solve a a' args out e Hs Hsol Hemp).
Qed.

Lemma makeTBSplot_solve_raises_witness :
  example_solve (assign impatient_args solved_example)
  = Raised (SolverError "growth impatience condition")
      {| DiscFac := 99 # 100; CRRA := 25 # 10; Rfree := 101 # 100;
         PermGroFac := 9 # 10; UnempPrb := 625 # 100000;
         solution := solution solved_example;
         PermGroFacCmp := Some ((9 # 10) / (1 - (625 # 100000)));
         mTarg := Some (9 # 1);
         cTarg := Some (1 # 1) |}
  /\ MyTBStype (snd (makeTBSplot example_solve impatient_args
                       {| MyTBStype := solved_example; output := [] |}))
     = {| DiscFac := 99 # 100; CRRA := 25 # 10; Rfree := 101 # 100;
          PermGroFac := 9 # 10; UnempPrb := 625 # 100000;
          solution := solution solved_example;
          PermGroFacCmp := Some ((9 # 10) / (1 - (625 # 100000)));
          mTarg := Some (9 # 1);
          cTarg := Some (1 # 1) |}
  /\ fst (makeTBSplot example_solve impatient_args
            {| MyTBStype := solved_example; output := [] |}) = inr tt.
Proof.
  assert (Hs : example_solve (assign impatient_args solved_example)
               = Raised (SolverError "growth impatience condition")
                   {| DiscFac := 99 # 100; CRRA := 25 # 10; Rfree := 101 # 100;
                      PermGroFac := 9 # 10; UnempPrb := 625 # 100000;
                      solution := solution solved_example;
                      PermGroFacCmp := Some ((9 # 10) / (1 - (625 # 100000)));
                      mTarg := Some (9 # 1);
                      cTarg := Some (1 # 1) |}) by reflexivity.
  split; [exact Hs |].
  destruct (makeTBSplot_solve_raises example_solve solved_example _ impatient_args _ [] Hs)
    as (_ & _ & Hobj & _ & Hret & _).
  split; [exact Hobj |]. apply Hret. reflexivity.
Defined.

(** C9 as first stated fails for the sustainable-consumption line.  Two
    calls from the widgets, with a [solve()] that stores
    [PermGroFacCmp] before it checks the parameter values, as the
    library's does: the first call solves; in the second [solve()]
    raises and the message is printed; the consumption functions drawn
    are the first call's, but the dashed line is drawn from the new
    [PermGroFacCmp], from about 0.8967 at [m = 0] to about 6.062 at
    [m = 50], whereas the line of the [PermGroFacCmp] that the first
    call left runs from about 0.9988 to about 1.06. *)
Lemma makeTBSplot_line_not_stale :
  exists w1 w2 g1 g2 lo hi,
    makeTBSplot example_solve widget_defaults {| MyTBStype := TBS_object; output := [] |}
    = (inr tt, w1)
    /\ makeTBSplot example_solve impatient_args w1 = (inr tt, w2)
    /\ length (output w1) = 9%nat
    /\ output w2 !! 9%nat
       = Some (Print "Those parameter values violate a condition required for solution!")
    /\ solution (MyTBStype w2) = solution (MyTBStype w1)
    /\ PermGroFacCmp (MyTBStype w1) = Some g1
    /\ PermGroFacCmp (MyTBStype w2) = Some g2
    /\ output w2 !! 15%nat = Some (Plot [0; 50] [lo; hi] "--k")
    /\ (8966 # 10000 < lo /\ lo < 8968 # 10000)
    /\ (6061 # 1000 < hi /\ hi < 6063 # 1000)
    /\ 998 # 1000 < g1 / Rfree (MyTBStype w1) + 0 * (1 - g1 / Rfree (MyTBStype w1))
    /\ g1 / Rfree (MyTBStype w1) + 50 * (1 - g1 / Rfree (MyTBStype w1)) < 107 # 100.
Proof.
  eexists _, _, _, _, _, _.
  split; [vm_compute; reflexivity |].
  split; [vm_compute; reflexivity |].
  split; [reflexivity |].
  split; [reflexivity |].
  split; [reflexivity |].
  split; [reflexivity |].
  split; [reflexivity |].
  split; [reflexivity |].
  split; [split; reflexivity |].
  split; [split; reflexivity |].
  split; reflexivity.
Qed.

End SolveRaises.

(** ** Building the agent types, and solving and simulating them in turn *)

Module AgentTypes.

Import Impatient.

Local Close Scope Q_scope.

(** [[]]: a new empty list object. *)
Definition new_list (h : heap) : loc * heap :=
  let l := fresh (dom h) in (l, <[l := OList []]> h).

(** [xs.append(v)] *)
Definition append (l : loc) (v : value) (h : heap) : option heap :=
  match h !! l with
  | Some (OList items) => Some (<[l := OList (items ++ [v])]> h)
  | _ => None
  end.

Section MakeTypes.

(** [DiscFac_dstn = approxUniform(...)[1]], computed by the library. *)
Variable DiscFac_dstn : list Q.

(** The body of [for nn in range(num_types)], from [nn] on, [remaining]
    times ([deepcopy] is given fuel for the whole heap, which is enough:
    [deepcopy_total]):
    [[
NewType = deepcopy(BaselineType)
NewType.DiscFac = DiscFac_dstn[nn]
NewType.seed = nn
MyTypes.append(NewType)
    ]] *)
Fixpoint type_loop (BaselineType MyTypes : loc) (nn remaining : nat) (h : heap)
    : option heap :=
  match remaining with
  | O => Some h
  | S remaining' =>
      match deepcopy (S (size h)) (VRef BaselineType) {| memo := ∅; store := h |} with
      | Some (VRef NewType, st) =>
          match DiscFac_dstn !! nn with
          | None => None
          | Some d =>
              match setattr NewType "DiscFac" (VNum d) (store st) with
              | None => None
              | Some h1 =>
                  match setattr NewType "seed" (VNum (inject_Z (Z.of_nat nn))) h1 with
                  | None => None
                  | Some h2 =>
                      match append MyTypes (VRef NewType) h2 with
                      | None => None
                      | Some h3 => type_loop BaselineType MyTypes (S nn) remaining' h3
                      end
                  end
              end
          end
      | _ => None
      end
  end.

(** [MyTypes = []] followed by the loop; the result is the identity of
    [MyTypes] and the heap afterwards. *)
Definition make_types (BaselineType : loc) (num_types : nat) (h : heap)
    : option (loc * heap) :=
  let (MyTypes, h0) := new_list h in
  match type_loop BaselineType MyTypes 0 num_types h0 with
  | Some h' => Some (MyTypes, h')
  | None => None
  end.

End MakeTypes.

Section SolveAll.

Variables solve initializeSim simulate : loc -> heap -> heap.

(** One pass of the loop body on [ThisType]. *)
Definition solve_and_simulate (ThisType : loc) (h : heap) : heap :=
  simulate ThisType (initializeSim ThisType (solve ThisType h)).

(** [for ThisType in log_progress(MyTypes, every=1): ...], from index
    [i] on.  [log_progress] (of the notebooks' [util] module) draws a
    progress bar and hands on the items of the list one by one, so the
    loop reads the list object as it is at each step.  [fuel] bounds
    the number of steps. *)
Fixpoint for_each_type (fuel : nat) (MyTypes : loc) (i : nat) (h : heap) : option heap :=
  match getitem MyTypes i h with
  | None => Some h
  | Some (VRef ThisType) =>
      match fuel with
      | O => None
      | S fuel' => for_each_type fuel' MyTypes (S i) (solve_and_simulate ThisType h)
      end
  | Some _ => None
  end.

(** The same passes over a given sequence of types. *)
Definition passes (ts : list loc) (h : heap) : heap :=
  fold_left (fun h t => solve_and_simulate t h) ts h.

End SolveAll.

(** No object is reachable from both. *)
Definition separate (h : heap) (t1 t2 : loc) : Prop :=
  forall l, reach h t1 l -> reach h t2 l -> False.

(** The types in [ts] are pairwise separate. *)
Definition all_separate (h : heap) (ts : list loc) : Prop :=
  forall i j t1 t2, ts !! i = Some t1 -> ts !! j = Some t2 -> i <> j -> separate h t1 t2.

(** What the later cells rely on: [MyTypes] lists the types [ts], no
    reference dangles, the types share no object, and none of them
    refers back to the list. *)
Definition arranged (h : heap) (MyTypes : loc) (ts : list loc) : Prop :=
  closed h
  /\ h !! MyTypes = Some (OList (VRef <$> ts))
  /\ all_separate h ts
  /\ (forall i t, ts !! i = Some t -> ~ reach h t MyTypes).

(** Type number [nn] as the loop leaves it: its [DiscFac] is entry [nn]
    of the distribution, its [seed] is [nn], and every other attribute
    of the baseline (with attributes [attrs]) that holds a number or
    [None] reads the same. *)
Definition built_as (DiscFac_dstn : list Q) (attrs : list (string * value))
    (h : heap) (nn : nat) (t : loc) : Prop :=
  (exists d, DiscFac_dstn !! nn = Some d /\ getattr t "DiscFac" h = Some (VNum d))
  /\ getattr t "seed" h = Some (VNum (inject_Z (Z.of_nat nn)))
  /\ (forall name v, name <> "DiscFac" -> name <> "seed" -> ref_of v = None ->
        assoc_get name attrs = Some v -> getattr t name h = Some v).

(** Where the loop stands after building [ts], relative to the heap
    [hb] before the cell. *)
Definition building (DiscFac_dstn : list Q) (attrs : list (string * value))
    (hb : heap) (MyTypes : loc) (h : heap) (ts : list loc) : Prop :=
  arranged h MyTypes ts
  /\ (MyTypes ∉ dom hb)
  /\ (forall l, l ∈ dom hb -> h !! l = hb !! l)
  /\ (forall i t, ts !! i = Some t -> built_as DiscFac_dstn attrs h i t)
  /\ (forall i t l, ts !! i = Some t -> reach h t l -> l ∉ dom hb).

(** [h'] differs from [h] only at objects reachable from [t] and at new
    ones, and [t] reaches no other object of [h] in [h']. *)
Definition confined (t : loc) (h h' : heap) : Prop :=
  forall l, l ∈ dom h -> ~ reach h t l -> h' !! l = h !! l /\ ~ reach h' t l.

(** A method that leaves no reference dangling. *)
Definition keeps_closed (m : loc -> heap -> heap) : Prop :=
  forall self h, closed h -> closed (m self h).

(** A small heap before the cell: the baseline type (object 1) with
    numbers and an array (object 2) among its attributes. *)
Definition baseline_heap : heap :=
  list_to_map
    [ (1%positive, OInstance [("CRRA", VNum 1); ("DiscFac", VNum (96 # 100));
                              ("Rfree", VNum (101 # 100)); ("PermGroFac", VRef 2);
                              ("cycles", VNum 0)]);
      (2%positive, OList [VNum (1000 # 1000)]) ].

(** References out of the objects in [region] stay in [region]; in a
    form that can be evaluated. *)
Definition region_check (h : heap) (region : gset loc) : Prop :=
  map_Forall (fun l o => l ∈ region ->
    Forall (fun v => match ref_of v with Some l' => l' ∈ region | None => True end)
           (children o)) h.

#[local] Instance region_check_dec h region : Decision (region_check h region).
Proof.
  unfold region_check. apply map_Forall_dec. intros l o.
  apply impl_dec; [apply _ |]. apply Forall_dec. intros v.
  destruct (ref_of v); apply _.
Defined.

(** *** Lemmas *)

Lemma reach_trans h a b c : reach h a b -> reach h b c -> reach h a c.
Proof.
  induction 1 as [a | a o a1 b Ho Hp Hr IH]; [auto |].
  intros Hbc. eapply reach_step; eauto.
Qed.

Lemma reach_edge h a b o l :
  reach h a b -> h !! b = Some o -> points_to o l -> reach h a l.
Proof.
  intros Hab Ho Hp. eapply reach_trans; [exact Hab |].
  eapply reach_step; [exact Ho | exact Hp | apply reach_refl].
Qed.

(** Reachability from [t] looks only at the objects reachable from [t]. *)
Lemma reach_frame h h' t l :
  (forall x, reach h t x -> h' !! x = h !! x) -> reach h' t l -> reach h t l.
Proof.
  intros Hsame Hr.
  assert (G : forall a, reach h' a l -> reach h t a -> reach h t l).
  { clear Hr. intros a Hr. induction Hr as [a | a o a1 b Ho Hp Hr IH]; [auto |].
    intros Ha. apply IH. rewrite (Hsame a Ha) in Ho. eapply reach_edge; eauto. }
  apply (G t Hr). apply reach_refl.
Qed.

Lemma reach_frame_iff h h' t l :
  (forall x, reach h t x -> h' !! x = h !! x) -> reach h' t l <-> reach h t l.
Proof.
  intros Hsame. split; [now apply reach_frame |].
  apply reach_frame. intros x Hx.
  assert (Hx' : reach h t x) by (apply (reach_frame h h'); auto).
  symmetry. auto.
Qed.

Lemma copying_closed h0 st : closed h0 -> copying h0 st -> closed (store st).
Proof.
  intros Hc I l o l' Ho Hp.
  destruct (decide (l ∈ dom h0)) as [Hl | Hl].
  - rewrite (old_kept _ _ I l Hl) in Ho.
    apply (copying_dom _ _ I). exact (Hc _ _ _ Ho Hp).
  - exact (proj2 (new_closed _ _ I _ _ _ Ho Hl Hp)).
Qed.

Lemma assoc_get_set_eq name v attrs : assoc_get name (assoc_set name v attrs) = Some v.
Proof.
  induction attrs as [| [k w] rest IH]; cbn.
  - now rewrite String.eqb_refl.
  - destruct (String.eqb k name) eqn:E; cbn; now rewrite E.
Qed.

Lemma assoc_get_set_ne name name' v attrs :
  name <> name' -> assoc_get name' (assoc_set name v attrs) = assoc_get name' attrs.
Proof.
  intros Hne. induction attrs as [| [k w] rest IH]; cbn.
  - destruct (String.eqb name name') eqn:E; [| reflexivity].
    apply String.eqb_eq in E. contradiction.
  - destruct (String.eqb k name) eqn:E; cbn.
    + apply String.eqb_eq in E. subst k.
      destruct (String.eqb name name') eqn:E'; [| reflexivity].
      apply String.eqb_eq in E'. contradiction.
    + now rewrite IH.
Qed.

(** Reading back an attribute that was just assigned; the others read
    as before. *)
Lemma getattr_setattr_eq l name v h h' :
  setattr l name v h = Some h' -> getattr l name h' = Some v.
Proof.
  unfold setattr, getattr. destruct (h !! l) as [[attrs | items] |]; try discriminate.
  intros [= <-]. rewrite lookup_insert_eq. apply assoc_get_set_eq.
Qed.

Lemma getattr_setattr_ne l l' name name' v h h' :
  setattr l name v h = Some h' -> (l <> l' \/ name <> name') ->
  getattr l' name' h' = getattr l' name' h.
Proof.
  unfold setattr, getattr. destruct (h !! l) as [[attrs | items] |] eqn:El; try discriminate.
  intros [= <-] Hne. destruct (decide (l = l')) as [<- | Hl].
  - rewrite lookup_insert_eq, El. destruct Hne as [Hne | Hne]; [contradiction |].
    now apply assoc_get_set_ne.
  - now rewrite lookup_insert_ne.
Qed.

Lemma setattr_other l name v h h' x :
  setattr l name v h = Some h' -> x <> l -> h' !! x = h !! x.
Proof.
  unfold setattr. destruct (h !! l) as [[attrs | items] |]; try discriminate.
  intros [= <-] Hne. now rewrite lookup_insert_ne.
Qed.

Lemma setattr_instance l name v h attrs :
  h !! l = Some (OInstance attrs) ->
  setattr l name v h = Some (<[l := OInstance (assoc_set name v attrs)]> h).
Proof. intros H. unfold setattr. now rewrite H. Qed.


Lemma copy_all_scalars fuel vs :
  forall st vs' st', copy_all (deepcopy fuel) vs st = Some (vs', st') ->
  forall i v, vs !! i = Some v -> ref_of v = None -> vs' !! i = Some v.
Proof.
  induction vs as [| v0 vs IH]; intros st vs' st' E i v Hi Hv; [discriminate |].
  cbn in E.
  destruct (deepcopy fuel v0 st) as [[v1 st1] |] eqn:E1; [| discriminate].
  destruct (copy_all (deepcopy fuel) vs st1) as [[vs1 st2] |] eqn:E2; [| discriminate].
  inversion E; subst vs' st'. clear E.
  destruct i as [| i]; cbn in *.
  - inversion Hi; subst v0. destruct fuel as [| fuel]; [discriminate |].
    destruct v as [| x | l]; cbn in E1; try discriminate; now inversion E1.
  - eapply IH; eauto.
Qed.

(** [deepcopy] of an instance: a new instance with the same attribute
    names, whose numbers and [None]s are those of the original. *)
Lemma deepcopy_instance h B attrs :
  closed h ->
  h !! B = Some (OInstance attrs) ->
  exists t vs st,
    deepcopy (S (size h)) (VRef B) {| memo := ∅; store := h |} = Some (VRef t, st)
    /\ copying h st
    /\ (t ∉ dom h)
    /\ store st !! t = Some (OInstance (zip (attrs.*1) vs))
    /\ length vs = length attrs
    /\ (forall i v, attrs.*2 !! i = Some v -> ref_of v = None -> vs !! i = Some v).
Proof.
  intros Hc HB.
  pose proof (copying_start h) as I0.
  assert (HoldB : old_value h (VRef B)).
  { intros l [= <-]. apply elem_of_dom. eauto. }
  assert (Hp : pending h {| memo := ∅; store := h |} < S (size h)).
  { unfold pending. cbn. rewrite dom_empty_L, difference_empty_L, size_dom. lia. }
  destruct (deepcopy_total h Hc _ _ _ I0 HoldB Hp) as [[v st] E].
  destruct (deepcopy_well h _ Hc _ _ _ _ I0 HoldB E) as (I & _ & _ & Hnew & Hv).
  destruct (Hv B eq_refl) as (t & -> & HmB).
  pose proof E as E0.
  cbn in E. rewrite lookup_empty, HB in E. cbn [children] in E.
  set (st1 := {| memo := <[B := fresh (dom h)]> ∅;
                 store := <[fresh (dom h) := empty_like (OInstance attrs)]> h |}) in *.
  assert (I1 : copying h st1) by (apply (copying_alloc h _ B _ I0 HB)).
  destruct (copy_all (deepcopy (size h)) (attrs.*2) st1) as [[vs st2] |] eqn:E2;
    [| discriminate].
  inversion E; subst t st. clear E.
  pose proof (closed_children_old _ _ _ Hc HB) as Hch. cbn in Hch.
  destruct (copy_all_well h _ (deepcopy_well h _ Hc) _ _ _ _ I1 Hch E2)
    as (_ & _ & _ & _ & Hlen).
  destruct (Hnew _ eq_refl) as [HN _].
  eexists (fresh (dom h)), vs, _.
  split; [exact E0 |]. split; [exact I |]. split; [exact HN |].
  split; [cbn; apply lookup_insert_eq |].
  split; [now rewrite Hlen, length_fmap |].
  intros i v Hi Hs. eapply copy_all_scalars; eauto.
Qed.

Lemma assoc_get_zip name v :
  forall attrs vs,
    length vs = length attrs ->
    (forall i w, attrs.*2 !! i = Some w -> ref_of w = None -> vs !! i = Some w) ->
    assoc_get name attrs = Some v -> ref_of v = None ->
    assoc_get name (zip (attrs.*1) vs) = Some v.
Proof.
  induction attrs as [| [k w] rest IH]; intros vs Hlen Hs Hg Hv; [discriminate |].
  destruct vs as [| v0 vs]; [discriminate |].
  cbn in *. destruct (String.eqb k name) eqn:E.
  - inversion Hg; subst w. pose proof (Hs 0 v eq_refl Hv) as H0. cbn in H0. exact H0.
  - apply IH; auto. intros i w' Hi Hw'. exact (Hs (S i) w' Hi Hw').
Qed.


Lemma arranged_in_dom h MyTypes ts i t :
  arranged h MyTypes ts -> ts !! i = Some t -> t ∈ dom h.
Proof.
  intros (Hc & HM & _) Hi. apply (Hc MyTypes _ t HM).
  unfold points_to. cbn. apply list_elem_of_fmap. exists t. split; [reflexivity |].
  apply list_elem_of_lookup. eauto.
Qed.

Lemma arranged_reach_in_dom h MyTypes ts i t l :
  arranged h MyTypes ts -> ts !! i = Some t -> reach h t l -> l ∈ dom h.
Proof.
  intros A Hi Hr. eapply reach_in_dom; [apply A | | exact Hr].
  eapply arranged_in_dom; eauto.
Qed.

(** One turn of the loop. *)
Lemma type_step dstn attrs hb B MyTypes h ts d :
  hb !! B = Some (OInstance attrs) ->
  building dstn attrs hb MyTypes h ts ->
  dstn !! length ts = Some d ->
  exists t st h1 h2 h3,
    deepcopy (S (size h)) (VRef B) {| memo := ∅; store := h |} = Some (VRef t, st)
    /\ setattr t "DiscFac" (VNum d) (store st) = Some h1
    /\ setattr t "seed" (VNum (inject_Z (Z.of_nat (length ts)))) h1 = Some h2
    /\ append MyTypes (VRef t) h2 = Some h3
    /\ building dstn attrs hb MyTypes h3 (ts ++ [t]).
Proof.
  intros HB (A & HMb & Hframe & Hbuilt & Hnewer) Hd.
  pose proof A as (Hc & HM & Hsep & HnoM).
  assert (HBh : h !! B = Some (OInstance attrs)).
  { rewrite Hframe; [exact HB |]. apply elem_of_dom. eauto. }
  destruct (deepcopy_instance h B attrs Hc HBh) as (t & vs & st & E & I & Ht & Hst & Hlen & Hsc).
  assert (HMh : MyTypes ∈ dom h) by (apply elem_of_dom; eauto).
  assert (HtM : t <> MyTypes) by (intros ->; contradiction).
  set (a1 := assoc_set "DiscFac" (VNum d) (zip (attrs.*1) vs)).
  set (a2 := assoc_set "seed" (VNum (inject_Z (Z.of_nat (length ts)))) a1).
  set (h1 := <[t := OInstance a1]> (store st)).
  set (h2 := <[t := OInstance a2]> h1).
  set (h3 := <[MyTypes := OList ((VRef <$> ts) ++ [VRef t])]> h2).
  assert (E1 : setattr t "DiscFac" (VNum d) (store st) = Some h1).
  { now apply setattr_instance. }
  assert (E2 : setattr t "seed" (VNum (inject_Z (Z.of_nat (length ts)))) h1 = Some h2).
  { apply setattr_instance. unfold h1. apply lookup_insert_eq. }
  assert (E3 : append MyTypes (VRef t) h2 = Some h3).
  { unfold append. unfold h2, h1. rewrite !lookup_insert_ne by exact HtM.
    rewrite (old_kept _ _ I _ HMh), HM. reflexivity. }
  exists t, st, h1, h2, h3.
  split; [exact E |]. split; [exact E1 |]. split; [exact E2 |]. split; [exact E3 |].
  (* the heap after the turn *)
  assert (F1 : forall l, l ∈ dom h -> l <> MyTypes -> h3 !! l = h !! l).
  { intros l Hl HlM. unfold h3, h2, h1.
    assert (t <> l) by (intros ->; contradiction).
    rewrite lookup_insert_ne by congruence. rewrite !lookup_insert_ne by assumption.
    apply (old_kept _ _ I _ Hl). }
  assert (F2 : h3 !! MyTypes = Some (OList (VRef <$> (ts ++ [t])))).
  { unfold h3. rewrite lookup_insert_eq, fmap_app. reflexivity. }
  assert (F3 : h3 !! t = Some (OInstance a2)).
  { unfold h3, h2. rewrite lookup_insert_ne by congruence. apply lookup_insert_eq. }
  assert (F4 : forall l, l <> t -> l <> MyTypes -> h3 !! l = store st !! l).
  { intros l H1 H2. unfold h3, h2, h1. rewrite !lookup_insert_ne by congruence. reflexivity. }
  assert (Hdom : forall l, l ∈ dom (store st) -> l ∈ dom h3).
  { intros l Hl. unfold h3, h2, h1. rewrite !dom_insert. set_solver. }
  assert (Hdomh : forall l, l ∈ dom h -> l ∈ dom h3).
  { intros l Hl. apply Hdom. now apply (copying_dom _ _ I). }
  assert (F5 : forall l o l', h3 !! l = Some o -> l ∉ dom h -> points_to o l' ->
                (l' ∉ dom h) /\ (l' ∈ dom h3)).
  { intros l o l' Ho Hl Hp.
    assert (l <> MyTypes) by (intros ->; contradiction).
    destruct (decide (l = t)) as [-> | Hlt].
    - rewrite F3 in Ho. inversion Ho; subst o. unfold points_to in Hp. cbn in Hp.
      apply children_assoc_set in Hp as [Hp | Hp]; [discriminate |].
      apply children_assoc_set in Hp as [Hp | Hp]; [discriminate |].
      destruct (new_closed _ _ I _ _ l' Hst Ht Hp) as [G1 G2]. split; auto.
    - rewrite F4 in Ho by assumption.
      destruct (new_closed _ _ I _ _ l' Ho Hl Hp) as [G1 G2]. split; auto. }
  assert (Hc3 : closed h3).
  { intros l o l' Ho Hp. destruct (decide (l ∈ dom h)) as [Hl | Hl].
    - destruct (decide (l = MyTypes)) as [-> | HlM].
      + rewrite F2 in Ho. inversion Ho; subst o. unfold points_to in Hp. cbn in Hp.
        apply list_elem_of_fmap in Hp as (x & [= <-] & Hx).
        apply list_elem_of_lookup in Hx as [i Hi].
        apply lookup_snoc_Some in Hi as [[_ Hi] | [_ <-]].
        * apply Hdomh. eapply arranged_in_dom; eauto.
        * apply elem_of_dom. eauto.
      + rewrite F1 in Ho by assumption. apply Hdomh. exact (Hc _ _ _ Ho Hp).
    - exact (proj2 (F5 _ _ _ Ho Hl Hp)). }
  assert (Hnpc : new_part_closed h h3).
  { intros l o l' Ho Hl Hp. exact (proj1 (F5 _ _ _ Ho Hl Hp)). }
  assert (Hold : forall i x l, ts !! i = Some x -> reach h3 x l <-> reach h x l).
  { intros i x l Hi. apply reach_frame_iff. intros y Hy. apply F1.
    - eapply arranged_reach_in_dom; eauto.
    - intros ->. exact (HnoM _ _ Hi Hy). }
  assert (Hnew : forall l, reach h3 t l -> l ∉ dom h).
  { intros l Hr. exact (reach_new _ _ _ _ Hnpc Ht Hr). }
  assert (Hsame : forall i x, ts !! i = Some x -> h3 !! x = h !! x).
  { intros i x Hi. apply F1; [eapply arranged_in_dom; eauto |].
    intros ->. apply (HnoM _ _ Hi). apply reach_refl. }
  split; [| split; [exact HMb | split; [| split]]].
  - (* arranged *)
    split; [exact Hc3 |]. split; [exact F2 |]. split.
    + intros i j t1 t2 Hi Hj Hij l R1 R2.
      apply lookup_snoc_Some in Hi as [[_ Hi] | [Hi <-]];
        apply lookup_snoc_Some in Hj as [[_ Hj] | [Hj <-]].
      * apply (Hsep i j t1 t2 Hi Hj Hij l); [eapply Hold | eapply Hold]; eauto.
      * apply (Hnew l R2). eapply arranged_reach_in_dom; [exact A | exact Hi |].
        eapply Hold; eauto.
      * apply (Hnew l R1). eapply arranged_reach_in_dom; [exact A | exact Hj |].
        eapply Hold; eauto.
      * lia.
    + intros i x Hi R. apply lookup_snoc_Some in Hi as [[_ Hi] | [_ <-]].
      * apply (HnoM i x Hi). eapply Hold; eauto.
      * exact (Hnew _ R HMh).
  - (* the heap before the cell *)
    intros l Hl.
    assert (Hlh : l ∈ dom h).
    { apply elem_of_dom. rewrite (Hframe l Hl). now apply elem_of_dom. }
    rewrite F1; [now apply Hframe | exact Hlh |]. intros ->. contradiction.
  - (* what each type holds *)
    intros i x Hi. apply lookup_snoc_Some in Hi as [[_ Hi] | [-> <-]].
    + destruct (Hbuilt i x Hi) as ((d' & Hd' & G1) & G2 & G3).
      unfold built_as, getattr in *. rewrite (Hsame i x Hi).
      split; [eauto |]. split; auto.
    + unfold built_as, getattr. rewrite F3. split; [| split].
      * exists d. split; [exact Hd |]. unfold a2.
        rewrite assoc_get_set_ne by discriminate. apply assoc_get_set_eq.
      * apply assoc_get_set_eq.
      * intros name v N1 N2 Hv Hg. unfold a2, a1.
        rewrite !assoc_get_set_ne by congruence.
        now apply assoc_get_zip.
  - (* the types are new *)
    intros i x l Hi R. apply lookup_snoc_Some in Hi as [[_ Hi] | [_ <-]].
    + apply (Hnewer i x l Hi). eapply Hold; eauto.
    + intros Hl. apply (Hnew l R). apply elem_of_dom. rewrite (Hframe l Hl).
      now apply elem_of_dom.
Qed.


Lemma building_start dstn attrs h :
  closed h ->
  building dstn attrs h (fresh (dom h)) (<[fresh (dom h) := OList []]> h) [].
Proof.
  intros Hc. pose proof (is_fresh (dom h)) as Hf.
  split; [| split; [exact Hf | split; [| split]]].
  - split; [| split; [apply lookup_insert_eq | split]].
    + intros l o l' Ho Hp. apply lookup_insert_Some in Ho as [[<- <-] | [Hne Ho]].
      * unfold points_to in Hp. cbn in Hp. now apply elem_of_nil in Hp.
      * rewrite dom_insert. apply elem_of_union_r. exact (Hc _ _ _ Ho Hp).
    + intros i j t1 t2 Hi. discriminate.
    + intros i t Hi. discriminate.
  - intros l Hl. apply lookup_insert_ne. intros <-. contradiction.
  - intros i t Hi. discriminate.
  - intros i t l Hi. discriminate.
Qed.

Lemma type_loop_builds dstn attrs hb B MyTypes :
  hb !! B = Some (OInstance attrs) ->
  forall remaining h ts,
    building dstn attrs hb MyTypes h ts ->
    length ts + remaining <= length dstn ->
    exists h' ts',
      type_loop dstn B MyTypes (length ts) remaining h = Some h'
      /\ building dstn attrs hb MyTypes h' (ts ++ ts')
      /\ length ts' = remaining.
Proof.
  intros HB. induction remaining as [| remaining IH]; intros h ts Hb Hlen.
  - exists h, []. rewrite app_nil_r. auto.
  - destruct (lookup_lt_is_Some_2 dstn (length ts)) as [d Hd]; [lia |].
    destruct (type_step dstn attrs hb B MyTypes h ts d HB Hb Hd)
      as (t & st & h1 & h2 & h3 & E & E1 & E2 & E3 & Hb3).
    destruct (IH h3 (ts ++ [t]) Hb3) as (h' & ts' & El & Hb' & Hl').
    { rewrite length_app. cbn. lia. }
    exists h', (t :: ts'). cbn [type_loop]. rewrite E, Hd, E1, E2, E3.
    rewrite length_app in El. cbn in El. rewrite Nat.add_1_r in El.
    split; [exact El |]. rewrite <- app_assoc in Hb'. cbn in Hb'.
    split; [exact Hb' | cbn; lia].
Qed.


Lemma footprint_confined m t h : method_footprint m -> confined t h (m t h).
Proof.
  intros F l Hl Hn. destruct (F t h) as [F1 F2]. split; [auto |].
  intros R. destruct (F2 l R); contradiction.
Qed.

Lemma confined_trans t h h1 h2 : confined t h h1 -> confined t h1 h2 -> confined t h h2.
Proof.
  intros C1 C2 l Hl Hn. destruct (C1 l Hl Hn) as [E1 N1].
  assert (Hl1 : l ∈ dom h1).
  { apply elem_of_dom. rewrite E1. now apply elem_of_dom. }
  destruct (C2 l Hl1 N1) as [E2 N2]. split; [congruence | exact N2].
Qed.

(** A turn of one type leaves the arrangement as it was, and the other
    types' objects with it. *)
Lemma pass_arranged h h' MyTypes ts k t :
  arranged h MyTypes ts -> ts !! k = Some t -> confined t h h' -> closed h' ->
  arranged h' MyTypes ts
  /\ (forall j x l, ts !! j = Some x -> j <> k -> reach h x l -> h' !! l = h !! l)
  /\ (forall j x l, ts !! j = Some x -> j <> k -> reach h' x l <-> reach h x l).
Proof.
  intros A Hk C Hc'. pose proof A as (Hc & HM & Hsep & HnoM).
  assert (Hkeep : forall j x l, ts !! j = Some x -> j <> k -> reach h x l ->
                    h' !! l = h !! l /\ ~ reach h' t l).
  { intros j x l Hj Hjk R. apply C.
    - eapply arranged_reach_in_dom; eauto.
    - intros R'. exact (Hsep k j t x Hk Hj (not_eq_sym Hjk) l R' R). }
  assert (Hiff : forall j x l, ts !! j = Some x -> j <> k -> reach h' x l <-> reach h x l).
  { intros j x l Hj Hjk. apply reach_frame_iff. intros y Hy.
    exact (proj1 (Hkeep j x y Hj Hjk Hy)). }
  assert (HMdom : MyTypes ∈ dom h) by (apply elem_of_dom; eauto).
  assert (HMt : ~ reach h t MyTypes) by (apply (HnoM k t Hk)).
  split; [| split; [intros j x l Hj Hjk R; exact (proj1 (Hkeep j x l Hj Hjk R)) | exact Hiff]].
  split; [exact Hc' |]. split; [| split].
  - rewrite (proj1 (C MyTypes HMdom HMt)). exact HM.
  - intros i j t1 t2 Hi Hj Hij l R1 R2.
    destruct (decide (i = k)) as [-> | Hik]; destruct (decide (j = k)) as [-> | Hjk].
    + contradiction.
    + rewrite Hk in Hi. inversion Hi; subst t1.
      apply (Hiff j t2 l Hj Hjk) in R2. exact (proj2 (Hkeep j t2 l Hj Hjk R2) R1).
    + rewrite Hk in Hj. inversion Hj; subst t2.
      apply (Hiff i t1 l Hi Hik) in R1. exact (proj2 (Hkeep i t1 l Hi Hik R1) R2).
    + apply (Hsep i j t1 t2 Hi Hj Hij l); [eapply Hiff | eapply Hiff]; eauto.
  - intros i x Hi R. destruct (decide (i = k)) as [-> | Hik].
    + rewrite Hk in Hi. inversion Hi; subst x.
      exact (proj2 (C MyTypes HMdom HMt) R).
    + apply (HnoM i x Hi). eapply Hiff; eauto.
Qed.

Lemma region_reach h region t l :
  region_check h region -> t ∈ region -> reach h t l -> l ∈ region.
Proof.
  intros Hr Ht R. induction R as [a | a o a1 b Ho Hp R IH]; [exact Ht |].
  apply IH. pose proof (map_Forall_lookup_1 _ _ _ _ Hr Ho Ht) as Hf.
  rewrite Forall_forall in Hf. exact (Hf (VRef a1) Hp).
Qed.

Lemma store_numbers_closed name xs : keeps_closed (store_numbers name xs).
Proof.
  intros self h Hc. unfold store_numbers.
  destruct (getattr self name h) as [[| x | p] |]; try exact Hc.
  intros l o l' Ho Hp. apply lookup_insert_Some in Ho as [[<- <-] | [Hne Ho]].
  - unfold points_to in Hp. cbn in Hp.
    apply list_elem_of_fmap in Hp as (x & Hx & _). discriminate.
  - rewrite dom_insert. apply elem_of_union_r. exact (Hc _ _ _ Ho Hp).
Qed.

Lemma two_types_arranged : arranged two_types 1 [2; 3]%positive.
Proof.
  set (r2 := ({[2; 4; 5]}%positive : gset loc)).
  set (r3 := ({[3; 6; 7]}%positive : gset loc)).
  assert (R2 : forall l, reach two_types 2 l -> l ∈ r2).
  { intros l. apply region_reach; apply (bool_decide_unpack _); vm_compute; exact I. }
  assert (R3 : forall l, reach two_types 3 l -> l ∈ r3).
  { intros l. apply region_reach; apply (bool_decide_unpack _); vm_compute; exact I. }
  assert (D : r2 ## r3) by (apply (bool_decide_unpack _); vm_compute; exact I).
  assert (N2 : 1%positive ∉ r2) by (apply (bool_decide_unpack _); vm_compute; exact I).
  assert (N3 : 1%positive ∉ r3) by (apply (bool_decide_unpack _); vm_compute; exact I).
  split; [exact two_types_closed |]. split; [reflexivity |]. split.
  - intros [| [| i]] [| [| j]] t1 t2 Hi Hj Hij l A B; cbn in Hi, Hj;
      try discriminate; try contradiction; inversion Hi; inversion Hj; subst.
    + exact (D l (R2 l A) (R3 l B)).
    + exact (D l (R2 l B) (R3 l A)).
  - intros [| [| i]] t Hi R; cbn in Hi; try discriminate; inversion Hi; subst.
    + exact (N2 (R2 _ R)).
    + exact (N3 (R3 _ R)).
Qed.

Section SolveAllFacts.

Variables solve initializeSim simulate : loc -> heap -> heap.
Hypothesis solve_footprint : method_footprint solve.
Hypothesis initializeSim_footprint : method_footprint initializeSim.
Hypothesis simulate_footprint : method_footprint simulate.
Hypothesis solve_closed : keeps_closed solve.
Hypothesis initializeSim_closed : keeps_closed initializeSim.
Hypothesis simulate_closed : keeps_closed simulate.

Local Abbreviation pass := (solve_and_simulate solve initializeSim simulate).
Local Abbreviation run := (passes solve initializeSim simulate).

Lemma run_cons u us h : run (u :: us) h = run us (pass u h).
Proof. reflexivity. Qed.

Lemma solve_and_simulate_confined t h : confined t h (pass t h).
Proof.
  unfold solve_and_simulate.
  eapply confined_trans; [| apply footprint_confined, simulate_footprint].
  eapply confined_trans; [| apply footprint_confined, initializeSim_footprint].
  apply footprint_confined, solve_footprint.
Qed.

Lemma solve_and_simulate_closed t h : closed h -> closed (pass t h).
Proof.
  intros Hc. unfold solve_and_simulate.
  apply simulate_closed, initializeSim_closed, solve_closed, Hc.
Qed.

Lemma pass_keeps_arranged h MyTypes ts k t :
  arranged h MyTypes ts -> ts !! k = Some t -> arranged (pass t h) MyTypes ts.
Proof.
  intros A Hk.
  apply (pass_arranged h (pass t h) MyTypes ts k t A Hk (solve_and_simulate_confined t h)).
  apply solve_and_simulate_closed, A.
Qed.

Lemma passes_arranged MyTypes ts us :
  us ⊆ ts -> forall h, arranged h MyTypes ts -> arranged (run us h) MyTypes ts.
Proof.
  induction us as [| u us IH]; intros Hsub h A; [exact A |].
  rewrite run_cons. assert (Hu : u ∈ ts) by (apply Hsub; left).
  apply list_elem_of_lookup in Hu as [k Hk].
  apply IH; [intros x Hx; apply Hsub; now right |].
  eapply pass_keeps_arranged; eauto.
Qed.

(** Turns of other types leave the objects of a type, and what it
    reaches, as they are. *)
Lemma passes_keep MyTypes ts j x us :
  us ⊆ ts -> ts !! j = Some x -> x ∉ us ->
  forall h, arranged h MyTypes ts ->
    forall l, reach h x l -> run us h !! l = h !! l /\ reach (run us h) x l.
Proof.
  induction us as [| u us IH]; intros Hsub Hj Hx h A l R; [auto |].
  rewrite run_cons. assert (Hu : u ∈ ts) by (apply Hsub; left).
  apply list_elem_of_lookup in Hu as [k Hk].
  assert (Hjk : j <> k).
  { intros ->. rewrite Hk in Hj. inversion Hj; subst. apply Hx. left. }
  destruct (pass_arranged h (pass u h) MyTypes ts k u A Hk
              (solve_and_simulate_confined u h)
              (solve_and_simulate_closed u h (proj1 A))) as (A1 & K1 & K2).
  destruct (IH (fun y Hy => Hsub y (list_elem_of_further _ _ _ Hy)) Hj
               (fun Hin => Hx (list_elem_of_further _ _ _ Hin)) (pass u h) A1 l) as [E1 R1].
  { apply (K2 j x l Hj Hjk). exact R. }
  split; [| exact R1].
  rewrite E1. exact (K1 j x l Hj Hjk R).
Qed.

(** Objects that no type reaches are left as they are. *)
Lemma passes_frame MyTypes ts us :
  us ⊆ ts ->
  forall h, arranged h MyTypes ts ->
    forall l, l ∈ dom h -> (forall i t, ts !! i = Some t -> ~ reach h t l) ->
      run us h !! l = h !! l.
Proof.
  induction us as [| u us IH]; intros Hsub h A l Hl Hn; [reflexivity |].
  rewrite run_cons. assert (Hu : u ∈ ts) by (apply Hsub; left).
  apply list_elem_of_lookup in Hu as [k Hk].
  destruct (solve_and_simulate_confined u h l Hl (Hn k u Hk)) as [E1 N1].
  destruct (pass_arranged h (pass u h) MyTypes ts k u A Hk
              (solve_and_simulate_confined u h)
              (solve_and_simulate_closed u h (proj1 A))) as (A1 & K1 & K2).
  rewrite <- E1.
  apply (IH (fun y Hy => Hsub y (list_elem_of_further _ _ _ Hy)) (pass u h) A1).
  - apply elem_of_dom. rewrite E1. now apply elem_of_dom.
  - intros i t Hi R. destruct (decide (i = k)) as [-> | Hik].
    + rewrite Hk in Hi. inversion Hi; subst t. exact (N1 R).
    + apply (Hn i t Hi). now apply (K2 i t l Hi Hik).
Qed.

(** The loop makes one turn per entry of the list, from index [i] on. *)
Lemma for_each_type_runs MyTypes ts :
  forall fuel i h,
    arranged h MyTypes ts -> length ts - i <= fuel ->
    for_each_type solve initializeSim simulate fuel MyTypes i h = Some (run (drop i ts) h).
Proof.
  induction fuel as [| fuel IH]; intros i h A Hf.
  - cbn. unfold getitem. rewrite (proj1 (proj2 A)), list_lookup_fmap.
    assert (Hi : ts !! i = None) by (apply lookup_ge_None; lia).
    rewrite Hi. cbn. rewrite drop_ge by lia. reflexivity.
  - cbn. unfold getitem. rewrite (proj1 (proj2 A)), list_lookup_fmap.
    destruct (ts !! i) as [t |] eqn:Hi; cbn.
    + rewrite (drop_S _ _ _ Hi), run_cons. apply IH; [| lia].
      eapply pass_keeps_arranged; eauto.
    + apply lookup_ge_None in Hi. rewrite drop_ge by lia. reflexivity.
Qed.

End SolveAllFacts.


(** The cell that builds the agent types returns.  It leaves [num_types]
    new types in the new list [MyTypes]; every object that was there
    before, the baseline type among them, is as it was; type number [nn]
    has [DiscFac_dstn[nn]] as its [DiscFac], [nn] as its [seed] and the
    baseline's other numbers; and no two types share an object, so that
    what is later done to one of them is not seen through another. *)
Theorem make_types_builds (DiscFac_dstn : list Q) (BaselineType : loc)
    (attrs : list (string * value)) (num_types : nat) (h : heap) :
  closed h ->
  h !! BaselineType = Some (OInstance attrs) ->
  num_types <= length DiscFac_dstn ->
  exists MyTypes ts h',
    make_types DiscFac_dstn BaselineType num_types h = Some (MyTypes, h')
    /\ length ts = num_types
    /\ (MyTypes ∉ dom h)
    /\ (forall l, l ∈ dom h -> h' !! l = h !! l)
    /\ arranged h' MyTypes ts
    /\ (forall nn t, ts !! nn = Some t -> built_as DiscFac_dstn attrs h' nn t)
    /\ (forall nn t l, ts !! nn = Some t -> reach h' t l -> l ∉ dom h).
Proof.
  intros Hc HB Hn.
  pose proof (building_start DiscFac_dstn attrs h Hc) as Hb0.
  destruct (type_loop_builds DiscFac_dstn attrs h BaselineType (fresh (dom h)) HB
              num_types _ [] Hb0) as (h' & ts & E & Hb & Hlen); [cbn; lia |].
  cbn in E, Hb. destruct Hb as (A & HM & Hframe & Hbuilt & Hnew).
  exists (fresh (dom h)), ts, h'. unfold make_types, new_list. rewrite E.
  repeat (split; [assumption || reflexivity |]). assumption.
Qed.

Lemma make_types_builds_witness :
  closed baseline_heap
  /\ baseline_heap !! 1%positive
     = Some (OInstance [("CRRA", VNum 1); ("DiscFac", VNum (96 # 100));
                        ("Rfree", VNum (101 # 100)); ("PermGroFac", VRef 2);
                        ("cycles", VNum 0)])
  /\ 2 <= length [9771 # 10000; 9940 # 10000]%Q
  /\ exists MyTypes ts h',
       make_types [9771 # 10000; 9940 # 10000]%Q 1 2 baseline_heap = Some (MyTypes, h')
       /\ length ts = 2
       /\ (MyTypes ∉ dom baseline_heap)
       /\ (forall l, l ∈ dom baseline_heap -> h' !! l = baseline_heap !! l)
       /\ arranged h' MyTypes ts
       /\ (forall nn t, ts !! nn = Some t ->
             built_as [9771 # 10000; 9940 # 10000]%Q
               [("CRRA", VNum 1); ("DiscFac", VNum (96 # 100));
                ("Rfree", VNum (101 # 100)); ("PermGroFac", VRef 2);
                ("cycles", VNum 0)] h' nn t)
       /\ (forall nn t l, ts !! nn = Some t -> reach h' t l -> l ∉ dom baseline_heap).
Proof.
  assert (Hc : closed baseline_heap).
  { apply closed_check_closed, (@bool_decide_unpack _ (closed_check_dec _)).
    vm_compute. exact I. }
  split; [exact Hc |]. split; [reflexivity |]. split; [cbn; lia |].
  apply (make_types_builds _ 1%positive _ 2 baseline_heap Hc); [reflexivity | cbn; lia].
Defined.

(** The loop that solves and simulates the types, with the library's
    methods writing only to what [self] reaches and leaving no reference
    dangling, on types that share no object.  The loop makes one turn
    per type and ends; the list and every object no type reaches are as
    before; a type is untouched until its turn comes, and after its turn
    no later turn changes what it then reaches. *)
Theorem for_each_type_isolated (solve initializeSim simulate : loc -> heap -> heap)
    (h : heap) (MyTypes : loc) (ts : list loc) :
  method_footprint solve -> method_footprint initializeSim -> method_footprint simulate ->
  keeps_closed solve -> keeps_closed initializeSim -> keeps_closed simulate ->
  arranged h MyTypes ts ->
  for_each_type solve initializeSim simulate (length ts) MyTypes 0 h
    = Some (passes solve initializeSim simulate ts h)
  /\ arranged (passes solve initializeSim simulate ts h) MyTypes ts
  /\ (forall l, l ∈ dom h -> (forall i t, ts !! i = Some t -> ~ reach h t l) ->
        passes solve initializeSim simulate ts h !! l = h !! l)
  /\ (forall k t, ts !! k = Some t ->
        (forall l, reach h t l ->
           passes solve initializeSim simulate (take k ts) h !! l = h !! l)
        /\ (forall l, reach (passes solve initializeSim simulate (take (S k) ts) h) t l ->
              passes solve initializeSim simulate ts h !! l
              = passes solve initializeSim simulate (take (S k) ts) h !! l)).
Proof.
  intros F1 F2 F3 C1 C2 C3 A.
  assert (Hnd : forall i j x, ts !! i = Some x -> ts !! j = Some x -> i = j).
  { intros i j x Hi Hj. destruct (decide (i = j)) as [| Hij]; [assumption |].
    exfalso. apply (proj1 (proj2 (proj2 A)) i j x x Hi Hj Hij x); apply reach_refl. }
  split; [| split; [| split]].
  - rewrite (for_each_type_runs solve initializeSim simulate F1 F2 F3 C1 C2 C3 MyTypes ts
               (length ts) 0 h A) by lia.
    reflexivity.
  - apply (passes_arranged solve initializeSim simulate F1 F2 F3 C1 C2 C3 MyTypes ts ts);
      [reflexivity | exact A].
  - apply (passes_frame solve initializeSim simulate F1 F2 F3 C1 C2 C3 MyTypes ts ts);
      [reflexivity | exact A].
  - intros k t Hk. split.
    + intros l R.
      apply (passes_keep solve initializeSim simulate F1 F2 F3 C1 C2 C3 MyTypes ts k t
               (take k ts)); auto.
      * apply subseteq_take.
      * intros Hin. apply list_elem_of_lookup in Hin as [i Hi].
        rewrite lookup_take in Hi. destruct (decide (i < k)) as [Hlt |]; [| discriminate].
        pose proof (Hnd i k t Hi Hk). lia.
    + intros l R.
      rewrite <- (take_drop (S k) ts) at 1. unfold passes at 1. rewrite fold_left_app.
      apply (passes_keep solve initializeSim simulate F1 F2 F3 C1 C2 C3 MyTypes ts k t
               (drop (S k) ts)); auto.
      * apply subseteq_drop.
      * intros Hin. apply list_elem_of_lookup in Hin as [i Hi].
        rewrite lookup_drop in Hi. pose proof (Hnd _ k t Hi Hk). lia.
      * apply (passes_arranged solve initializeSim simulate F1 F2 F3 C1 C2 C3 MyTypes ts);
          [apply subseteq_take | exact A].
Qed.

Lemma for_each_type_isolated_witness :
  method_footprint example_solve /\ method_footprint example_initializeSim
  /\ method_footprint example_simulate
  /\ keeps_closed example_solve /\ keeps_closed example_initializeSim
  /\ keeps_closed example_simulate
  /\ arranged two_types 1 [2; 3]%positive
  /\ for_each_type example_solve example_initializeSim example_simulate 2 1 0 two_types
     = Some (passes example_solve example_initializeSim example_simulate [2; 3]%positive two_types)
  /\ passes example_solve example_initializeSim example_simulate [2; 3]%positive two_types
       !! 1%positive = two_types !! 1%positive.
Proof.
  pose proof (for_each_type_isolated example_solve example_initializeSim example_simulate
                two_types 1 [2; 3]%positive
                (store_numbers_footprint _ _) (store_numbers_footprint _ _)
                (store_numbers_footprint _ _)
                (store_numbers_closed _ _) (store_numbers_closed _ _)
                (store_numbers_closed _ _) two_types_arranged) as (E & A & _ & _).
  repeat (split; [apply store_numbers_footprint || apply store_numbers_closed |]).
  split; [exact two_types_arranged |]. split; [exact E |].
  rewrite (proj1 (proj2 A)). reflexivity.
Defined.

End AgentTypes.

(** ** The consumer with more credit *)

Module Credit.

Import Impatient AgentTypes.

(** [[
XtraCreditExample = deepcopy(BaselineExample)
XtraCreditExample.BoroCnstArt = BaselineExample.BoroCnstArt - credit_change
    ]]
    The result is the identity of [XtraCreditExample] and the heap
    afterwards.  The subtraction is that of numbers: with the attribute
    missing ([AttributeError]) or [None] ([TypeError]) the cell fails,
    and an object on the left is not modelled and taken to fail too. *)
Definition xtra_credit (BaselineExample : loc) (credit_change : Q) (h : heap)
    : option (loc * heap) :=
  match deepcopy (S (size h)) (VRef BaselineExample) {| memo := ∅; store := h |} with
  | Some (VRef XtraCreditExample, st) =>
      match getattr BaselineExample "BoroCnstArt" (store st) with
      | Some (VNum b) =>
          match setattr XtraCreditExample "BoroCnstArt" (VNum (b - credit_change)) (store st) with
          | Some h' => Some (XtraCreditExample, h')
          | None => None
          end
      | _ => None
      end
  | _ => None
  end.

(** A baseline consumer (object 1) with its parameters and a solution
    (object 2). *)
Definition baseline_example : heap :=
  list_to_map
    [ (1%positive, OInstance [("Rfree", VNum (102 # 100)); ("CRRA", VNum 2);
                              ("BoroCnstArt", VNum (- (3 # 10)));
                              ("DiscFac", VNum (1 # 2)); ("cycles", VNum 0);
                              ("PermGroFac", VRef 2)]);
      (2%positive, OList [VNum (101 # 100)]) ].

(** *** Lemmas *)

(** The cell that makes [XtraCreditExample] goes through when the
    baseline's [BoroCnstArt] is a number, and fails when the attribute
    is missing or [None].  When it goes through, [XtraCreditExample] is
    a new object whose [BoroCnstArt] is the baseline's less
    [credit_change]; the baseline and every other object that was there
    are as before; the other numbers of the baseline read the same in
    the copy; and the two consumers share no object, so that solving
    one leaves the other alone. *)
Theorem xtra_credit_relaxes (BaselineExample : loc) (attrs : list (string * value))
    (credit_change : Q) (h : heap) :
  closed h ->
  h !! BaselineExample = Some (OInstance attrs) ->
  ((exists b, assoc_get "BoroCnstArt" attrs = Some (VNum b)) ->
   is_Some (xtra_credit BaselineExample credit_change h))
  /\ (assoc_get "BoroCnstArt" attrs = None \/ assoc_get "BoroCnstArt" attrs = Some VNone ->
      xtra_credit BaselineExample credit_change h = None)
  /\ (forall XtraCreditExample h',
        xtra_credit BaselineExample credit_change h = Some (XtraCreditExample, h') ->
        (XtraCreditExample ∉ dom h)
        /\ (forall l, l ∈ dom h -> h' !! l = h !! l)
        /\ (exists b,
              getattr BaselineExample "BoroCnstArt" h' = Some (VNum b)
              /\ getattr XtraCreditExample "BoroCnstArt" h'
                 = Some (VNum (b - credit_change)))
        /\ (forall name v, name <> "BoroCnstArt" -> ref_of v = None ->
              getattr BaselineExample name h' = Some v ->
              getattr XtraCreditExample name h' = Some v)
        /\ separate h' BaselineExample XtraCreditExample).
Proof.
  intros Hc HB.
  destruct (deepcopy_instance h BaselineExample attrs Hc HB)
    as (t & vs & st & E & I & Ht & Hst & Hlen & Hsc).
  assert (HBd : BaselineExample ∈ dom h) by (apply elem_of_dom; eauto).
  assert (HBst : store st !! BaselineExample = Some (OInstance attrs)).
  { rewrite (old_kept _ _ I _ HBd). exact HB. }
  assert (Hg : getattr BaselineExample "BoroCnstArt" (store st)
               = assoc_get "BoroCnstArt" attrs).
  { unfold getattr. now rewrite HBst. }
  unfold xtra_credit. rewrite E, Hg.
  destruct (assoc_get "BoroCnstArt" attrs) as [[| b | p] |] eqn:Eb.
  1, 3, 4: split; [intros [? ?]; discriminate
                  | split; [reflexivity | intros ? ? ?; discriminate]].
  rewrite (setattr_instance _ _ _ _ _ Hst).
  split; [eauto |]. split; [intros [? | ?]; discriminate |].
  intros X h' [= <- <-].
  set (h' := <[t := OInstance (assoc_set "BoroCnstArt" (VNum (b - credit_change))
                                 (zip (attrs.*1) vs))]> (store st)).
  assert (Es : setattr t "BoroCnstArt" (VNum (b - credit_change)) (store st) = Some h').
  { now apply setattr_instance. }
  destruct (setattr_apart h (store st) t _ _ h' (old_kept _ _ I)
              (copying_new_part_closed _ _ I) Ht Es) as [Hframe Hnew].
  assert (HtB : t <> BaselineExample) by (intros ->; contradiction).
  assert (HB' : h' !! BaselineExample = Some (OInstance attrs)).
  { rewrite (Hframe _ HBd). exact HB. }
  split; [exact Ht |]. split; [exact Hframe |]. split; [| split].
  - exists b. split.
    + unfold getattr. rewrite HB'. exact Eb.
    + eapply getattr_setattr_eq; eauto.
  - intros name v Hname Hv Hgv. unfold getattr in *. rewrite HB' in Hgv.
    unfold h'. rewrite lookup_insert_eq.
    rewrite assoc_get_set_ne by congruence. now apply assoc_get_zip.
  - intros l R1 R2. apply (Hnew l R2).
    eapply (reach_in_dom h BaselineExample l Hc HBd).
    apply (reach_frame h h'); [| exact R1].
    intros x Hx. apply Hframe. exact (reach_in_dom h _ _ Hc HBd Hx).
Qed.

Lemma xtra_credit_relaxes_witness :
  closed baseline_example
  /\ baseline_example !! 1%positive
     = Some (OInstance [("Rfree", VNum (102 # 100)); ("CRRA", VNum 2);
                        ("BoroCnstArt", VNum (- (3 # 10)));
                        ("DiscFac", VNum (1 # 2)); ("cycles", VNum 0);
                        ("PermGroFac", VRef 2)])
  /\ is_Some (xtra_credit 1 (1 # 10000) baseline_example).
Proof.
  assert (Hc : closed baseline_example).
  { apply closed_check_closed, (@bool_decide_unpack _ (closed_check_dec _)).
    vm_compute. exact I. }
  split; [exact Hc |]. split; [reflexivity |].
  apply (proj1 (xtra_credit_relaxes 1%positive _ (1 # 10000) baseline_example Hc eq_refl)).
  eexists. reflexivity.
Defined.

End Credit.

(** ** The setup cell: inline figures or not *)

Module Setup.

(** What [get_ipython()] returns: [None] outside IPython, otherwise the
    running shell, an instance of the class named. *)
Inductive pyobject :=
| PyNone
| InteractiveShell (class_name : string).

Inductive exn :=
| NameError
| AttributeError (type_name attribute : string)
| OtherError (name : string).

(** [shell.run_line_magic(magic, line)] on the shell of class [shell_class]. *)
Inductive event :=
| Magic (shell_class magic line : string).

(** [str(type(x))] *)
Definition str_type (x : pyobject) : string :=
  match x with
  | PyNone => "<class 'NoneType'>"
  | InteractiveShell class_name => "<class '" +:+ class_name +:+ "'>"
  end.

Definition ZMQInteractiveShell : string := "ipykernel.zmqshell.ZMQInteractiveShell".

Section Cell.

(** How a call [get_ipython()] ends. *)
Variable get_ipython : exn + pyobject.

(** [[
def in_ipynb():
    try:
        if str(type(get_ipython())) == "<class 'ipykernel.zmqshell.ZMQInteractiveShell'>":
            return True
        else:
            return False
    except NameError:
        return False
    ]] *)
Definition in_ipynb : exn + bool :=
  match get_ipython with
  | inr x =>
      if String.eqb (str_type x) "<class 'ipykernel.zmqshell.ZMQInteractiveShell'>"
      then inr true else inr false
  | inl NameError => inr false
  | inl e => inl e
  end.

(** [get_ipython().run_line_magic(magic, line)] *)
Definition run_line_magic (magic line : string) : exn + event :=
  match get_ipython with
  | inl e => inl e
  | inr PyNone => inl (AttributeError "NoneType" "run_line_magic")
  | inr (InteractiveShell class_name) => inr (Magic class_name magic line)
  end.

(** [[
if in_ipynb():
    get_ipython().run_line_magic('matplotlib', 'inline')
else:
    get_ipython().run_line_magic('matplotlib', 'auto')
    ]] *)
Definition choose_backend : exn + event :=
  match in_ipynb with
  | inl e => inl e
  | inr true => run_line_magic "matplotlib" "inline"
  | inr false => run_line_magic "matplotlib" "auto"
  end.

End Cell.

(** *** Lemmas *)

Lemma length_append (a s : string) :
  String.length (a +:+ s) = (String.length a + String.length s)%nat.
Proof.
  induction a as [| c a IH]; [reflexivity |].
  change (S (String.length (a +:+ s)) = S (String.length a + String.length s)).
  now rewrite IH.
Qed.

Lemma append_inj_r (s a b : string) : a +:+ s = b +:+ s -> a = b.
Proof.
  revert b. induction a as [| c a IH]; intros [| d b] H.
  - reflexivity.
  - apply (f_equal String.length) in H. rewrite !length_append in H. cbn in H. lia.
  - apply (f_equal String.length) in H. rewrite !length_append in H. cbn in H. lia.
  - change (String c (a +:+ s) = String d (b +:+ s)) in H.
    injection H as -> H. f_equal. auto.
Qed.

Lemma str_type_ZMQ (x : pyobject) :
  String.eqb (str_type x) "<class 'ipykernel.zmqshell.ZMQInteractiveShell'>" = true
  <-> x = InteractiveShell ZMQInteractiveShell.
Proof.
  rewrite String.eqb_eq. split; [| intros ->; reflexivity].
  destruct x as [| c]; [discriminate |]. intros H.
  change ("<class '" +:+ (c +:+ "'>") = "<class '" +:+ (ZMQInteractiveShell +:+ "'>")) in H.
  apply String.app_inj in H. apply append_inj_r in H. now subst.
Qed.

(** [in_ipynb()] answers [True] exactly in a shell of the notebook
    kernel's class, and never lets a [NameError] through.  The cell that
    follows picks [inline] there and [auto] in any other shell.  Outside
    IPython, where [get_ipython()] is [None], [in_ipynb()] answers
    [False] and the [else] branch then fails with [AttributeError] on
    [None]; and an exception of [get_ipython()], a [NameError] too, ends
    the cell. *)
Theorem choose_backend_outcome (get_ipython : exn + pyobject) :
  (in_ipynb get_ipython = inr true
   <-> get_ipython = inr (InteractiveShell ZMQInteractiveShell))
  /\ in_ipynb get_ipython <> inl NameError
  /\ choose_backend get_ipython
     = match get_ipython with
       | inl e => inl e
       | inr PyNone => inl (AttributeError "NoneType" "run_line_magic")
       | inr (InteractiveShell class_name) =>
           inr (Magic class_name "matplotlib"
                  (if decide (class_name = ZMQInteractiveShell) then "inline" else "auto"))
       end.
Proof.
  split; [| split].
  - unfold in_ipynb. destruct get_ipython as [[| t a | n] | x]; try (split; discriminate).
    destruct (String.eqb (str_type x) _) eqn:E.
    + apply str_type_ZMQ in E. subst x. split; reflexivity.
    + split; [discriminate |]. intros [= ->]. discriminate.
  - unfold in_ipynb. destruct get_ipython as [[| t a | n] | x]; try discriminate.
    destruct (String.eqb (str_type x) _); discriminate.
  - unfold choose_backend, in_ipynb, run_line_magic.
    destruct get_ipython as [[| t a | n] | x]; try reflexivity.
    destruct (String.eqb (str_type x) _) eqn:E.
    + apply str_type_ZMQ in E. subst x. reflexivity.
    + destruct x as [| c]; [reflexivity |].
      destruct (decide (c = ZMQInteractiveShell)) as [-> | Hc]; [discriminate | reflexivity].
Qed.

End Setup.

(** ** What the copied types hold *)

Module Copies.

Import Impatient AgentTypes.

Local Close Scope Q_scope.

(** [v'] is [v] with a reference replaced by its copy. *)
Definition renamed (m : gmap loc loc) (v v' : value) : Prop :=
  match v with
  | VRef c => exists c', m !! c = Some c' /\ v' = VRef c'
  | _ => v' = v
  end.

(** The object at [l'] is the finished copy of the original at [l]: the
    same class and attribute names, the slots renamed. *)
Definition mirrors (h0 : heap) (st : copier) (l l' : loc) : Prop :=
  exists o vs,
    h0 !! l = Some o
    /\ store st !! l' = Some (with_children o vs)
    /\ Forall2 (renamed (memo st)) (children o) vs.

(** Distinct originals have distinct copies, and every copy is finished
    but for those of the originals in [busy]. *)
Definition finished (h0 : heap) (st : copier) (busy : gset loc) : Prop :=
  (forall l1 l2 l', memo st !! l1 = Some l' -> memo st !! l2 = Some l' -> l1 = l2)
  /\ (forall l l', memo st !! l = Some l' -> l ∉ busy -> mirrors h0 st l l').

(** [t'] in [h'] reads as [t] in [h]: the same numbers and [None]s in
    its attributes, and the same numbers in the arrays its attributes
    refer to. *)
Definition reads_the_same (h : heap) (t : loc) (h' : heap) (t' : loc) : Prop :=
  (forall name v, ref_of v = None -> getattr t name h = Some v -> getattr t' name h' = Some v)
  /\ (forall name a j x,
        getattr t name h = Some (VRef a) -> getitem a j h = Some (VNum x) ->
        exists a', getattr t' name h' = Some (VRef a') /\ getitem a' j h' = Some (VNum x)).

(** *** Lemmas *)

Lemma renamed_mono m m' v v' : m ⊆ m' -> renamed m v v' -> renamed m' v v'.
Proof.
  intros Hm. destruct v as [| x | c]; cbn; auto.
  intros (c' & Hc & ->). exists c'. split; [| reflexivity].
  eapply lookup_weaken; eauto.
Qed.

Lemma renamed_ref m v x : renamed m v (VRef x) -> exists c, v = VRef c /\ m !! c = Some x.
Proof.
  destruct v as [| y | c]; cbn; try discriminate.
  intros (c' & Hc & [= ->]). eauto.
Qed.

Lemma copy_all_finished h0 fuel :
  closed h0 ->
  (forall v st v' st' busy,
     copying h0 st -> old_value h0 v -> finished h0 st busy ->
     deepcopy fuel v st = Some (v', st') ->
     finished h0 st' busy /\ renamed (memo st') v v') ->
  forall vs st vs' st' busy,
    copying h0 st -> Forall (old_value h0) vs -> finished h0 st busy ->
    copy_all (deepcopy fuel) vs st = Some (vs', st') ->
    finished h0 st' busy /\ Forall2 (renamed (memo st')) vs vs'.
Proof.
  intros Hc IH. induction vs as [| v vs IHvs]; intros st vs' st' busy I Hold F E.
  - inversion E; subst. split; [exact F | constructor].
  - cbn in E.
    destruct (deepcopy fuel v st) as [[v1 st1] |] eqn:E1; [| discriminate].
    destruct (copy_all (deepcopy fuel) vs st1) as [[vs1 st2] |] eqn:E2; [| discriminate].
    inversion E; subst vs' st'. clear E.
    inversion Hold as [| ? ? Hv Hvs]; subst.
    destruct (deepcopy_well h0 fuel Hc _ _ _ _ I Hv E1) as (I1 & _).
    destruct (IH _ _ _ _ busy I Hv F E1) as [F1 R1].
    destruct (IHvs _ _ _ busy I1 Hvs F1 E2) as [F2 R2].
    destruct (copy_all_well h0 _ (deepcopy_well h0 fuel Hc) _ _ _ _ I1 Hvs E2)
      as (_ & M2 & _).
    split; [exact F2 |]. constructor; [| exact R2].
    eapply renamed_mono; eauto.
Qed.

(** [deepcopy] finishes every copy it starts. *)
Lemma deepcopy_finished h0 :
  closed h0 ->
  forall fuel v st v' st' busy,
    copying h0 st -> old_value h0 v -> finished h0 st busy ->
    deepcopy fuel v st = Some (v', st') ->
    finished h0 st' busy /\ renamed (memo st') v v'.
Proof.
  intros Hc. induction fuel as [| fuel IH]; intros v st v' st' busy I Hold F E;
    [discriminate |].
  cbn in E. destruct v as [| x | l].
  - inversion E; subst. split; [exact F | reflexivity].
  - inversion E; subst. split; [exact F | reflexivity].
  - destruct (memo st !! l) as [l0 |] eqn:Em.
    { inversion E; subst. split; [exact F |]. cbn. eauto. }
    pose proof (Hold l eq_refl) as Hl.
    rewrite (old_kept _ _ I l Hl) in E.
    destruct (h0 !! l) as [o |] eqn:Eo; [| discriminate].
    set (l' := fresh (dom (store st))) in *.
    set (st1 := {| memo := <[l := l']> (memo st);
                   store := <[l' := empty_like o]> (store st) |}) in *.
    assert (Hfresh : l' ∉ dom (store st)) by apply is_fresh.
    assert (I1 : copying h0 st1) by (apply (copying_alloc h0 st l o I Eo)).
    destruct (copy_all (deepcopy fuel) (children o) st1) as [[vs st2] |] eqn:E2;
      [| discriminate].
    inversion E; subst v' st'. clear E.
    destruct F as [Finj Fdone].
    assert (F1 : finished h0 st1 (busy ∪ {[l]})).
    { split.
      - intros l1 l2 x H1 H2. unfold st1 in H1, H2. cbn in H1, H2.
        apply lookup_insert_Some in H1 as [[<- <-] | [N1 H1]];
          apply lookup_insert_Some in H2 as [[<- E2'] | [N2 H2]].
        + reflexivity.
        + exfalso. apply Hfresh. exact (proj2 (memo_fresh _ _ I _ _ H2)).
        + exfalso. subst x. apply Hfresh. exact (proj2 (memo_fresh _ _ I _ _ H1)).
        + eapply Finj; eauto.
      - intros x x' Hx Hb. unfold st1 in Hx. cbn in Hx.
        apply lookup_insert_Some in Hx as [[<- <-] | [N Hx]].
        { exfalso. apply Hb. apply elem_of_union_r, elem_of_singleton. reflexivity. }
        destruct (Fdone x x' Hx) as (ox & vsx & H1 & H2 & H3).
        { intros Hin. apply Hb. apply elem_of_union_l. exact Hin. }
        exists ox, vsx. split; [exact H1 |]. split.
        + unfold st1. cbn. rewrite lookup_insert_ne; [exact H2 |].
          intros <-. apply Hfresh. apply elem_of_dom. eauto.
        + eapply Forall2_impl; [exact H3 |]. intros a b. apply renamed_mono.
          unfold st1. cbn. apply insert_subseteq. exact Em. }
    destruct (copy_all_finished h0 fuel Hc IH _ _ _ _ _ I1
                (closed_children_old _ _ _ Hc Eo) F1 E2) as [[F2inj F2done] R2].
    destruct (copy_all_well h0 _ (deepcopy_well h0 fuel Hc) _ _ _ _ I1
                (closed_children_old _ _ _ Hc Eo) E2) as (_ & M2 & _).
    assert (Hm2 : memo st2 !! l = Some l').
    { eapply lookup_weaken; [| exact M2]. unfold st1. cbn. apply lookup_insert_eq. }
    split; [| cbn; eauto].
    split; [exact F2inj |]. cbn [memo store].
    intros x x' Hx Hb. destruct (decide (x = l)) as [-> | N].
    + rewrite Hm2 in Hx. inversion Hx; subst x'.
      exists o, vs. cbn [memo store].
      split; [exact Eo |]. split; [apply lookup_insert_eq | exact R2].
    + destruct (F2done x x' Hx) as (ox & vsx & H1 & H2 & H3).
      { intros Hin. apply elem_of_union in Hin as [Hin | Hin]; [exact (Hb Hin) |].
        apply elem_of_singleton in Hin. exact (N Hin). }
      exists ox, vsx. cbn [memo store]. split; [exact H1 |]. split; [| exact H3].
      rewrite lookup_insert_ne; [exact H2 |].
      intros <-. apply N. symmetry. eapply F2inj; eauto.
Qed.


(** A copy from scratch: every object reachable from the root has its
    finished copy. *)
Lemma deepcopy_mirror h0 root :
  closed h0 -> root ∈ dom h0 ->
  exists root' st,
    deepcopy (S (size h0)) (VRef root) {| memo := ∅; store := h0 |} = Some (VRef root', st)
    /\ copying h0 st
    /\ memo st !! root = Some root'
    /\ finished h0 st ∅.
Proof.
  intros Hc Hr.
  pose proof (copying_start h0) as I0.
  assert (Hold : old_value h0 (VRef root)) by (intros l [= <-]; exact Hr).
  assert (Hp : pending h0 {| memo := ∅; store := h0 |} < S (size h0)).
  { unfold pending. cbn. rewrite dom_empty_L, difference_empty_L, size_dom. lia. }
  destruct (deepcopy_total h0 Hc _ _ _ I0 Hold Hp) as [[v st] E].
  destruct (deepcopy_well h0 _ Hc _ _ _ _ I0 Hold E) as (I & _ & _ & _ & Hv).
  destruct (Hv root eq_refl) as (root' & -> & Hm).
  assert (F0 : finished h0 {| memo := ∅; store := h0 |} ∅).
  { split.
    - intros l1 l2 l' H. cbn in H. now rewrite lookup_empty in H.
    - intros l l' H. cbn in H. now rewrite lookup_empty in H. }
  destruct (deepcopy_finished h0 Hc _ _ _ _ _ ∅ I0 Hold F0 E) as [F _].
  exists root', st. auto.
Qed.

Lemma mirrors_child h0 st a a' c :
  mirrors h0 st a a' ->
  (forall o, h0 !! a = Some o -> points_to o c) ->
  exists c', memo st !! c = Some c'.
Proof.
  intros (o & vs & Ho & _ & R) Hp. specialize (Hp o Ho). unfold points_to in Hp.
  apply list_elem_of_lookup in Hp as [i Hi].
  destruct (Forall2_lookup_l _ _ _ _ _ R Hi) as (v' & _ & Hv).
  cbn in Hv. destruct Hv as (c' & Hc' & _). eauto.
Qed.

(** Everything reachable from a copied object is copied. *)
Lemma memo_reach h0 st a a' y :
  finished h0 st ∅ -> memo st !! a = Some a' -> reach h0 a y ->
  exists y', memo st !! y = Some y'.
Proof.
  intros [_ Fdone] Ha R. revert a' Ha.
  induction R as [a | a o c y Ho Hp R IH]; intros a' Ha; [eauto |].
  destruct (mirrors_child h0 st a a' c (Fdone a a' Ha (not_elem_of_empty a))) as [c' Hc'].
  - intros o' Ho'. rewrite Ho in Ho'. now inversion Ho'; subst.
  - eapply IH; eauto.
Qed.

(** What a copy reaches is the copy of what its original reaches. *)
Lemma copy_reach h0 st a a' x :
  finished h0 st ∅ -> memo st !! a = Some a' -> reach (store st) a' x ->
  exists y, reach h0 a y /\ memo st !! y = Some x.
Proof.
  intros [Finj Fdone] Ha R. revert a Ha.
  induction R as [a' | a' o' x1 x Ho' Hp R IH]; intros a Ha.
  - exists a. split; [apply reach_refl | exact Ha].
  - destruct (Fdone a a' Ha (not_elem_of_empty a)) as (o & vs & Ho & Hs & Rn).
    rewrite Hs in Ho'. inversion Ho'; subst o'.
    apply children_with_children_sub in Hp.
    apply list_elem_of_lookup in Hp as [i Hi].
    destruct (Forall2_lookup_r _ _ _ _ _ Rn Hi) as (v & Hv & Hren).
    apply renamed_ref in Hren as (c & -> & Hc).
    destruct (IH c Hc) as (y & Ry & Hy).
    exists y. split; [| exact Hy].
    eapply reach_step; [exact Ho | | exact Ry].
    unfold points_to. apply list_elem_of_lookup. eauto.
Qed.

Lemma assoc_get_zip_renamed m name :
  forall attrs vs v,
    Forall2 (renamed m) (attrs.*2) vs ->
    assoc_get name attrs = Some v ->
    exists v', assoc_get name (zip (attrs.*1) vs) = Some v' /\ renamed m v v'.
Proof.
  induction attrs as [| [k w] rest IH]; intros vs v R Hg; [discriminate |].
  cbn in R. inversion R as [| ? v0 ? vs0 R0 Rr]; subst. cbn in *.
  destruct (String.eqb k name).
  - inversion Hg; subst. eauto.
  - eapply IH; eauto.
Qed.

(** Assigning a number to an attribute adds no reference. *)
Lemma reach_set_number h t name x h1 a l :
  setattr t name (VNum x) h = Some h1 -> reach h1 a l -> reach h a l.
Proof.
  unfold setattr. destruct (h !! t) as [[attrs | items] |] eqn:Et; try discriminate.
  intros [= <-] R. induction R as [a | a o c l Ho Hp R IH]; [apply reach_refl |].
  apply lookup_insert_Some in Ho as [[<- <-] | [N Ho]].
  - unfold points_to in Hp. cbn in Hp.
    apply children_assoc_set in Hp as [Hp | Hp]; [discriminate |].
    eapply reach_step; [exact Et | exact Hp | exact IH].
  - eapply reach_step; eauto.
Qed.

(** A finished copy reads as its original. *)
Lemma mirrors_reads_the_same h0 st t t' :
  finished h0 st ∅ -> memo st !! t = Some t' ->
  (forall name v, ref_of v = None -> getattr t name h0 = Some v ->
     getattr t' name (store st) = Some v)
  /\ (forall name a j x,
        getattr t name h0 = Some (VRef a) -> getitem a j h0 = Some (VNum x) ->
        exists a', memo st !! a = Some a'
                   /\ getattr t' name (store st) = Some (VRef a')
                   /\ getitem a' j (store st) = Some (VNum x)).
Proof.
  intros [Finj Fdone] Ht.
  destruct (Fdone t t' Ht (not_elem_of_empty t)) as (o & vs & Ho & Hs & R).
  split.
  - intros name v Hv Hg. unfold getattr in *. rewrite Ho in Hg. rewrite Hs.
    destruct o as [attrs | items]; [| discriminate]. cbn in *.
    destruct (assoc_get_zip_renamed _ name attrs vs v R Hg) as (v' & Hg' & Hr).
    rewrite Hg'. destruct v; cbn in *; congruence.
  - intros name a j x Hg Hj. unfold getattr in *. rewrite Ho in Hg. rewrite Hs.
    destruct o as [attrs | items]; [| discriminate]. cbn in *.
    destruct (assoc_get_zip_renamed _ name attrs vs _ R Hg) as (v' & Hg' & Hr).
    cbn in Hr. destruct Hr as (a' & Ha' & ->).
    exists a'. split; [exact Ha' |]. split; [exact Hg' |].
    destruct (Fdone a a' Ha' (not_elem_of_empty a)) as (oa & vsa & Hoa & Hsa & Ra).
    unfold getitem in *. rewrite Hoa in Hj. rewrite Hsa.
    destruct oa as [attrsa | itemsa]; [discriminate |]. cbn in *.
    destruct (Forall2_lookup_l _ _ _ _ _ Ra Hj) as (v' & Hv' & Hr). cbn in Hr.
    now subst v'.
Qed.


(** In the experiment with very impatient households only [NewTypes[0]]
    is changed, solved and simulated again.  With the library's methods
    writing only to what [self] reaches, and the types of [MyTypes]
    sharing no object, every other entry of [NewTypes] is a new object
    that still reads as the type of [MyTypes] at the same index: the
    same numbers in its attributes and in the arrays they refer to, as
    the solve-and-simulate loop left them.  [NewTypes] is as long as
    [MyTypes]. *)
Theorem very_impatient_copies_the_rest (solve initializeSim simulate : loc -> heap -> heap)
    (h : heap) (MyTypes a0 : loc) (rest : list loc) (attrs : list (string * value)) :
  method_footprint solve -> method_footprint initializeSim -> method_footprint simulate ->
  arranged h MyTypes (a0 :: rest) ->
  h !! a0 = Some (OInstance attrs) ->
  exists NewTypes h',
    very_impatient solve initializeSim simulate (S (size h)) MyTypes h = Some (NewTypes, h')
    /\ getitem NewTypes (S (length rest)) h' = None
    /\ (forall i t, rest !! i = Some t ->
          exists t',
            getitem NewTypes (S i) h' = Some (VRef t')
            /\ (t' ∉ dom h)
            /\ reads_the_same h t h' t').
Proof.
  intros F1 F2 F3 A Ha0. pose proof A as (Hc & HM & Hsep & HnoM).
  assert (HMd : MyTypes ∈ dom h) by (apply elem_of_dom; eauto).
  destruct (deepcopy_mirror h MyTypes Hc HMd) as (NewTypes & st & E & I & HmM & F).
  pose proof F as [Finj Fdone].
  destruct (Fdone _ _ HmM (not_elem_of_empty _)) as (oM & vs & HoM & HN & RM).
  rewrite HM in HoM. inversion HoM; subst oM. clear HoM. cbn in HN, RM.
  (* the copy of the first type *)
  destruct (Forall2_lookup_l _ _ _ 0 (VRef a0) RM eq_refl) as (v0 & Hv0 & Hr0).
  cbn in Hr0. destruct Hr0 as (n0 & Hm0 & ->).
  destruct (Fdone _ _ Hm0 (not_elem_of_empty _)) as (o0 & vs0 & Ho0 & Hn0 & _).
  rewrite Ha0 in Ho0. inversion Ho0; subst o0. clear Ho0. cbn in Hn0.
  set (h1 := <[n0 := OInstance (assoc_set "DiscFac" (VNum (8 # 10)) (zip (attrs.*1) vs0))]>
               (store st)).
  assert (Es : setattr n0 "DiscFac" (VNum (8 # 10)) (store st) = Some h1).
  { now apply setattr_instance. }
  set (h' := solve_and_simulate solve initializeSim simulate n0 h1).
  pose proof (solve_and_simulate_confined solve initializeSim simulate F1 F2 F3 n0 h1) as Hconf.
  fold h' in Hconf.
  (* copies of what the first type does not reach are left alone *)
  assert (K : forall y y', memo st !! y = Some y' -> ~ reach h a0 y ->
                h' !! y' = store st !! y').
  { intros y y' Hy Hn.
    assert (Hne : n0 <> y').
    { intros <-. apply Hn. rewrite (Finj y a0 n0 Hy Hm0). apply reach_refl. }
    assert (E1 : h1 !! y' = store st !! y') by (unfold h1; now rewrite lookup_insert_ne).
    rewrite <- E1. apply Hconf.
    - apply elem_of_dom. rewrite E1. apply elem_of_dom.
      exact (proj2 (memo_fresh _ _ I _ _ Hy)).
    - intros R. apply (reach_set_number _ _ _ _ _ _ _ Es) in R.
      destruct (copy_reach h st a0 n0 y' F Hm0 R) as (z & Rz & Hz).
      apply Hn. now rewrite (Finj y z y' Hy Hz). }
  assert (HN' : h' !! NewTypes = Some (OList vs)).
  { rewrite (K MyTypes NewTypes HmM); [exact HN |]. exact (HnoM 0 a0 eq_refl). }
  exists NewTypes, h'. split; [| split].
  - unfold very_impatient. rewrite E. cbn [ref_of].
    unfold getitem. rewrite HN, Hv0, Es. reflexivity.
  - unfold getitem. rewrite HN'. apply lookup_ge_None.
    rewrite <- (Forall2_length _ _ _ RM). cbn. rewrite length_fmap. lia.
  - intros i t Hi.
    assert (Hit : (VRef <$> a0 :: rest) !! S i = Some (VRef t)).
    { rewrite list_lookup_fmap.
      change ((a0 :: rest) !! S i) with (rest !! i). now rewrite Hi. }
    destruct (Forall2_lookup_l _ _ _ _ _ RM Hit) as (v' & Hv' & Hr).
    cbn in Hr. destruct Hr as (t' & Hmt & ->).
    assert (Hapart : forall l, reach h t l -> ~ reach h a0 l).
    { intros l Rt R0. apply (Hsep 0 (S i) a0 t eq_refl Hi (Nat.neq_0_succ i) l R0 Rt). }
    destruct (mirrors_reads_the_same h st t t' F Hmt) as [S1 S2].
    exists t'. split; [| split; [| split]].
    + unfold getitem. rewrite HN'. exact Hv'.
    + exact (proj1 (memo_fresh _ _ I _ _ Hmt)).
    + intros name v Hv Hg. unfold getattr.
      rewrite (K t t' Hmt (Hapart t (reach_refl _ _))).
      exact (S1 name v Hv Hg).
    + intros name a j x Hg Hj.
      destruct (S2 name a j x Hg Hj) as (a' & Hma & G1 & G2).
      assert (Rta : reach h t a).
      { unfold getattr in Hg. destruct (h !! t) as [[attrst | itemst] |] eqn:Et;
          try discriminate.
        eapply reach_step; [exact Et | | apply reach_refl].
        unfold points_to. cbn. eapply assoc_get_elem; eauto. }
      exists a'. split.
      * unfold getattr. rewrite (K t t' Hmt (Hapart t (reach_refl _ _))). exact G1.
      * unfold getitem. rewrite (K a a' Hma (Hapart a Rta)). exact G2.
Qed.

Lemma very_impatient_copies_the_rest_witness :
  arranged two_types 1 [2; 3]%positive
  /\ exists NewTypes h',
       very_impatient example_solve example_initializeSim example_simulate
         (S (size two_types)) 1%positive two_types = Some (NewTypes, h')
       /\ getitem NewTypes 2 h' = None
       /\ (forall i t, [3%positive] !! i = Some t ->
             exists t',
               getitem NewTypes (S i) h' = Some (VRef t')
               /\ (t' ∉ dom two_types)
               /\ reads_the_same two_types t h' t').
Proof.
  split; [exact two_types_arranged |].
  apply (very_impatient_copies_the_rest example_solve example_initializeSim example_simulate
           two_types 1%positive 2%positive [3%positive]
           [("DiscFac", VNum (9771 # 10000)); ("seed", VNum 0);
            ("solution", VRef 4%positive); ("aLvlNow", VRef 5%positive)]
           (store_numbers_footprint _ _) (store_numbers_footprint _ _)
           (store_numbers_footprint _ _) two_types_arranged).
  reflexivity.
Defined.

End Copies.
